(** * MovieHub: a shallow embedding of [script.js]

    The development follows the source file top-down.  [JsString] holds the
    string primitives the program calls ([toLowerCase], [trim], [includes]),
    [Json] the values that [response.json()] can deliver together with the
    conversions the DOM and template literals apply to them.  Then comes the
    [MovieApp] class: its fields, the part of the document it writes to, the
    browser facilities it relies on (timers, [fetch], the console), its
    methods as state transformers and the events its listeners react to.
    [Utils] holds [Utils.debounce], which the class does not use.  The
    properties come last. *)

From Stdlib Require Import String Ascii List Bool Arith PeanoNat ZArith Lia.
From Stdlib Require Import DecimalString Permutation.
Import ListNotations.
Set Warnings "-register-all".
Local Open Scope string_scope.
Local Open Scope list_scope.
Local Open Scope nat_scope.

(** ** Strings

    A JavaScript string is a sequence of UTF-16 code units.  The model keeps
    the code units below 256 (Latin-1), which is what [ascii] holds; on that
    range [String.prototype.toLowerCase] acts on each code unit separately
    and [trim] removes exactly seven code units. *)
Module JsString.

Definition code (c : ascii) : nat := nat_of_ascii c.

(** [A-Z] and the accented capitals U+00C0..U+00DE (U+00D7, the
    multiplication sign, excepted) have their lower case 32 places up. *)
Definition lower_ascii (c : ascii) : ascii :=
  let n := code c in
  if ((65 <=? n) && (n <=? 90))
     || ((192 <=? n) && (n <=? 222) && negb (n =? 215))
  then ascii_of_nat (n + 32)
  else c.

Fixpoint toLowerCase (s : string) : string :=
  match s with
  | EmptyString => EmptyString
  | String c s' => String (lower_ascii c) (toLowerCase s')
  end.

(** WhiteSpace and LineTerminator code units below 256: TAB, LF, VT, FF,
    CR, SP and NBSP. *)
Definition isWhiteSpace (c : ascii) : bool :=
  let n := code c in
  ((9 <=? n) && (n <=? 13)) || (n =? 32) || (n =? 160).

Fixpoint trimStart (s : string) : string :=
  match s with
  | EmptyString => EmptyString
  | String c s' => if isWhiteSpace c then trimStart s' else s
  end.

Fixpoint trimEnd (s : string) : string :=
  match s with
  | EmptyString => EmptyString
  | String c s' =>
      match trimEnd s' with
      | EmptyString => if isWhiteSpace c then EmptyString else String c EmptyString
      | r => String c r
      end
  end.

Definition trim (s : string) : string := trimEnd (trimStart s).

(** [s.includes(sub)]: [sub] occurs in [s] at some position. *)
Fixpoint includes (s sub : string) : bool :=
  prefix sub s
  || match s with
     | EmptyString => false
     | String _ s' => includes s' sub
     end.

End JsString.

(** ** JSON values and their conversions *)
Module Json.

(** The values [JSON.parse] produces, and [undefined], which reading an
    absent property produces.  A number is held in tenths: [Num 85] is
    [8.5] and [Num 20080] is [2008].  This covers the numbers of
    [movies.json] (identifiers, years, ratings with one decimal); for such
    numbers of up to fifteen digits the conversions to text below agree
    with those of the double that JavaScript holds.  An object is the list
    of its own properties as left by the parser. *)
Inductive value : Type :=
| Undefined
| Null
| Bool (b : bool)
| Num (tenths : Z)
| Str (s : string)
| Arr (items : list value)
| Obj (fields : list (string * value)).

Definition digits (n : Z) : string :=
  NilZero.string_of_uint (N.to_uint (Z.to_N n)).

(** [Number.prototype.toString] on a number of tenths: the fraction digit
    is printed only when it is not zero. *)
Definition numberToString (t : Z) : string :=
  let a := Z.abs t in
  let body :=
    if (a mod 10 =? 0)%Z then digits (a / 10)
    else (digits (a / 10) ++ "." ++ digits (a mod 10))%string in
  if (t <? 0)%Z then ("-" ++ body)%string else body.


(** The abstract operation ToString, as applied by template literals and
    by attribute setters.  An array joins its elements with commas, the
    elements [null] and [undefined] contributing nothing. *)
Fixpoint ToString (v : value) : string :=
  match v with
  | Undefined => "undefined"
  | Null => "null"
  | Bool true => "true"
  | Bool false => "false"
  | Num t => numberToString t
  | Str s => s
  | Arr items =>
      (fix join (l : list value) : string :=
         match l with
         | [] => ""
         | x :: rest =>
             let e := match x with
                      | Undefined | Null => ""
                      | _ => ToString x
                      end in
             match rest with
             | [] => e
             | _ :: _ => (e ++ "," ++ join rest)%string
             end
         end) items
  | Obj _ => "[object Object]"
  end.

(** Assigning to [textContent], a nullable DOMString attribute: [null] and
    [undefined] clear the text, anything else is converted by ToString. *)
Definition toTextContent (v : value) : string :=
  match v with
  | Undefined | Null => ""
  | _ => ToString v
  end.

Fixpoint lookup (k : string) (fields : list (string * value)) : option value :=
  match fields with
  | [] => None
  | (k', v) :: rest => if (k =? k')%string then Some v else lookup k rest
  end.

End Json.

Import JsString Json.

(** ** The state the program runs in *)

(** What can be thrown while the program runs: the rejection of [fetch], the
    [Error] built at the status check of [loadMovies], the rejection of
    [response.json()], and the TypeError the engine raises on a bad property
    read, call or spread. *)
Inductive js_error : Type :=
| NetworkError
| HttpError (status : nat)
| JsonSyntaxError
| TypeError.

Inductive outcome (A : Type) : Type :=
| Ok (a : A)
| Throw (e : js_error).
Arguments Ok {A} a.
Arguments Throw {A} e.

(** The fields of a [MovieApp] instance (the [elements] table is in
    [Document]). *)
Record MovieApp : Type := {
  movies : value;
  filteredMovies : list value;
  isLoading : bool;
  searchTimeout : option positive
}.

(** [style.display] of the four state regions. *)
Record Regions : Type := {
  loadingState : string;
  errorState : string;
  noResultsState : string;
  moviesContainer : string
}.

(** What [openModal] writes into the modal. *)
Record ModalContent : Type := {
  modalPoster_src : string;
  modalPoster_alt : string;
  modalTitle : string;
  modalYear : string;
  modalRating : string;
  modalGenre : string;
  modalDescription : string
}.

(** A card built by [createMovieCard]: the values interpolated into its
    markup, its position, and the movie its listeners close over. *)
Record Card : Type := {
  card_ariaLabel : string;
  card_index : nat;
  card_poster : string;
  card_alt : string;
  card_rating : string;
  card_title : string;
  card_year : string;
  card_movie : value
}.

Record Document : Type := {
  regions : Regions;
  cards : list Card;
  movieModal : string;
  body_overflow : string;
  modal : ModalContent;
  activeElement : string
}.

Inductive callback : Type :=
| SearchCallback (query : string)
| FocusCallback.

Record timer : Type := {
  timer_id : positive;
  timer_due : nat;
  timer_cb : callback
}.

(** The browser: a clock in milliseconds, the timer table, the [fetch]
    requests that have not settled, the console, the errors no handler
    caught, and the queries of the search callbacks that have run (a ghost
    log). *)
Record Browser : Type := {
  clock : nat;
  timers : list timer;
  next_timer : positive;
  inflight : list nat;
  next_fetch : nat;
  console : list js_error;
  uncaught : list js_error;
  searches : list string
}.

Record World : Type := {
  this : MovieApp;
  doc : Document;
  env : Browser
}.

Definition with_this (f : MovieApp -> MovieApp) (w : World) : World :=
  {| this := f (this w); doc := doc w; env := env w |}.
Definition with_doc (f : Document -> Document) (w : World) : World :=
  {| this := this w; doc := f (doc w); env := env w |}.
Definition with_env (f : Browser -> Browser) (w : World) : World :=
  {| this := this w; doc := doc w; env := f (env w) |}.

Definition set_movies (v : value) (a : MovieApp) : MovieApp :=
  {| movies := v; filteredMovies := filteredMovies a;
     isLoading := isLoading a; searchTimeout := searchTimeout a |}.
Definition set_filteredMovies (l : list value) (a : MovieApp) : MovieApp :=
  {| movies := movies a; filteredMovies := l;
     isLoading := isLoading a; searchTimeout := searchTimeout a |}.
Definition set_isLoading (b : bool) (a : MovieApp) : MovieApp :=
  {| movies := movies a; filteredMovies := filteredMovies a;
     isLoading := b; searchTimeout := searchTimeout a |}.
Definition set_searchTimeout (t : option positive) (a : MovieApp) : MovieApp :=
  {| movies := movies a; filteredMovies := filteredMovies a;
     isLoading := isLoading a; searchTimeout := t |}.

Definition set_regions (r : Regions) (d : Document) : Document :=
  {| regions := r; cards := cards d; movieModal := movieModal d;
     body_overflow := body_overflow d; modal := modal d;
     activeElement := activeElement d |}.
Definition set_cards (l : list Card) (d : Document) : Document :=
  {| regions := regions d; cards := l; movieModal := movieModal d;
     body_overflow := body_overflow d; modal := modal d;
     activeElement := activeElement d |}.
Definition set_movieModal (s : string) (d : Document) : Document :=
  {| regions := regions d; cards := cards d; movieModal := s;
     body_overflow := body_overflow d; modal := modal d;
     activeElement := activeElement d |}.
Definition set_body_overflow (s : string) (d : Document) : Document :=
  {| regions := regions d; cards := cards d; movieModal := movieModal d;
     body_overflow := s; modal := modal d;
     activeElement := activeElement d |}.
Definition set_modal (m : ModalContent) (d : Document) : Document :=
  {| regions := regions d; cards := cards d; movieModal := movieModal d;
     body_overflow := body_overflow d; modal := m;
     activeElement := activeElement d |}.
Definition set_activeElement (s : string) (d : Document) : Document :=
  {| regions := regions d; cards := cards d; movieModal := movieModal d;
     body_overflow := body_overflow d; modal := modal d;
     activeElement := s |}.

Definition set_timers (l : list timer) (b : Browser) : Browser :=
  {| clock := clock b; timers := l; next_timer := next_timer b;
     inflight := inflight b; next_fetch := next_fetch b;
     console := console b; uncaught := uncaught b; searches := searches b |}.
Definition set_clock (t : nat) (b : Browser) : Browser :=
  {| clock := t; timers := timers b; next_timer := next_timer b;
     inflight := inflight b; next_fetch := next_fetch b;
     console := console b; uncaught := uncaught b; searches := searches b |}.
Definition set_next_timer (p : positive) (b : Browser) : Browser :=
  {| clock := clock b; timers := timers b; next_timer := p;
     inflight := inflight b; next_fetch := next_fetch b;
     console := console b; uncaught := uncaught b; searches := searches b |}.
Definition set_inflight (l : list nat) (b : Browser) : Browser :=
  {| clock := clock b; timers := timers b; next_timer := next_timer b;
     inflight := l; next_fetch := next_fetch b;
     console := console b; uncaught := uncaught b; searches := searches b |}.
Definition set_next_fetch (n : nat) (b : Browser) : Browser :=
  {| clock := clock b; timers := timers b; next_timer := next_timer b;
     inflight := inflight b; next_fetch := n;
     console := console b; uncaught := uncaught b; searches := searches b |}.
Definition set_console (l : list js_error) (b : Browser) : Browser :=
  {| clock := clock b; timers := timers b; next_timer := next_timer b;
     inflight := inflight b; next_fetch := next_fetch b;
     console := l; uncaught := uncaught b; searches := searches b |}.
Definition set_uncaught (l : list js_error) (b : Browser) : Browser :=
  {| clock := clock b; timers := timers b; next_timer := next_timer b;
     inflight := inflight b; next_fetch := next_fetch b;
     console := console b; uncaught := l; searches := searches b |}.
Definition set_searches (l : list string) (b : Browser) : Browser :=
  {| clock := clock b; timers := timers b; next_timer := next_timer b;
     inflight := inflight b; next_fetch := next_fetch b;
     console := console b; uncaught := uncaught b; searches := l |}.

(** ** A monad for methods that read and write the world and may throw.
    A throw keeps the writes made before it, as in JavaScript. *)
Definition M (A : Type) : Type := World -> outcome A * World.

Definition ret {A} (a : A) : M A := fun w => (Ok a, w).
Definition throw {A} (e : js_error) : M A := fun w => (Throw e, w).
Definition bind {A B} (m : M A) (k : A -> M B) : M B :=
  fun w =>
    match m w with
    | (Ok a, w') => k a w'
    | (Throw e, w') => (Throw e, w')
    end.
Definition modify (f : World -> World) : M unit := fun w => (Ok tt, f w).
Definition gets {A} (f : World -> A) : M A := fun w => (Ok (f w), w).
Definition lift {A} (o : outcome A) : M A := fun w => (o, w).
Definition try_catch (body : M unit) (handler : js_error -> M unit) : M unit :=
  fun w =>
    match body w with
    | (Ok tt, w') => (Ok tt, w')
    | (Throw e, w') => handler e w'
    end.

Notation "x <- m ;; k" := (bind m (fun x => k))
  (at level 61, m at next level, right associativity).
Notation "m ;;; k" := (bind m (fun _ => k))
  (at level 61, right associativity).

Definition obind {A B} (o : outcome A) (k : A -> outcome B) : outcome B :=
  match o with
  | Ok a => k a
  | Throw e => Throw e
  end.

(** ** Language and browser primitives *)

(** [v.k] for the property names the program reads ([title], [year],
    [genre], [rating], [description], [poster]); none of them is defined on
    a built-in prototype, so only an object can have one. *)
Definition getProp (v : value) (k : string) : outcome value :=
  match v with
  | Undefined | Null => Throw TypeError
  | Obj fields =>
      Ok (match lookup k fields with
          | Some x => x
          | None => Undefined
          end)
  | _ => Ok Undefined
  end.

(** [v.toLowerCase()]: only a string has the method. *)
Definition call_toLowerCase (v : value) : outcome string :=
  match v with
  | Str s => Ok (toLowerCase s)
  | _ => Throw TypeError
  end.

Fixpoint chars (s : string) : list value :=
  match s with
  | EmptyString => []
  | String c s' => Str (String c EmptyString) :: chars s'
  end.

(** [[...v]]: arrays and strings are the iterable JSON values. *)
Definition spread (v : value) : outcome (list value) :=
  match v with
  | Arr items => Ok items
  | Str s => Ok (chars s)
  | _ => Throw TypeError
  end.

Fixpoint filter_items (p : value -> outcome bool) (l : list value)
  : outcome (list value) :=
  match l with
  | [] => Ok []
  | x :: rest =>
      obind (p x) (fun keep =>
      obind (filter_items p rest) (fun rest' =>
      Ok (if keep then x :: rest' else rest')))
  end.

(** [v.filter(p)]: only an array has the method. *)
Definition call_filter (v : value) (p : value -> outcome bool)
  : outcome (list value) :=
  match v with
  | Arr items => filter_items p items
  | _ => Throw TypeError
  end.

Definition setTimeout (cb : callback) (delay : nat) : M positive :=
  fun w =>
    let id := next_timer (env w) in
    let t := {| timer_id := id; timer_due := clock (env w) + delay;
                timer_cb := cb |} in
    (Ok id,
     with_env (fun b => set_next_timer (Pos.succ id)
                          (set_timers (timers b ++ [t]) b)) w).

Definition clearTimeout (id : positive) : World -> World :=
  with_env (fun b =>
    set_timers (filter (fun t => negb (Pos.eqb (timer_id t) id)) (timers b)) b).

(** [fetch('movies.json')]: a request is in flight until it settles. *)
Definition fetch : M nat :=
  fun w =>
    let id := next_fetch (env w) in
    (Ok id,
     with_env (fun b => set_next_fetch (S id)
                          (set_inflight (inflight b ++ [id]) b)) w).

Definition console_error (e : js_error) : World -> World :=
  with_env (fun b => set_console (console b ++ [e]) b).

(** ** The methods of [MovieApp], in the order of the source *)

Definition set_loadingState (s : string) (r : Regions) : Regions :=
  {| loadingState := s; errorState := errorState r;
     noResultsState := noResultsState r; moviesContainer := moviesContainer r |}.
Definition set_errorState (s : string) (r : Regions) : Regions :=
  {| loadingState := loadingState r; errorState := s;
     noResultsState := noResultsState r; moviesContainer := moviesContainer r |}.
Definition set_noResultsState (s : string) (r : Regions) : Regions :=
  {| loadingState := loadingState r; errorState := errorState r;
     noResultsState := s; moviesContainer := moviesContainer r |}.
Definition set_moviesContainer (s : string) (r : Regions) : Regions :=
  {| loadingState := loadingState r; errorState := errorState r;
     noResultsState := noResultsState r; moviesContainer := s |}.

Definition on_regions (f : Regions -> Regions) : World -> World :=
  with_doc (fun d => set_regions (f (regions d)) d).

Definition hideAllStates : World -> World :=
  on_regions (fun r =>
    set_moviesContainer "none"
      (set_noResultsState "none"
         (set_errorState "none" (set_loadingState "none" r)))).

Definition showLoading (w : World) : World :=
  on_regions (set_loadingState "block")
    (hideAllStates (with_this (set_isLoading true) w)).

Definition hideLoading (w : World) : World :=
  on_regions (set_loadingState "none") (with_this (set_isLoading false) w).

Definition showError (w : World) : World :=
  on_regions (set_errorState "block") (hideAllStates w).

Definition showNoResults (w : World) : World :=
  on_regions (set_noResultsState "block") (hideAllStates w).

Definition closeModal (w : World) : World :=
  with_doc (fun d => set_body_overflow "auto" (set_movieModal "none" d)) w.

Definition isModalOpen (w : World) : bool :=
  (movieModal (doc w) =? "block")%string.

(** [createMovieCard(movie, index)].  The element is detached until
    [renderMovies] appends it, so the function has no effect on the world; it
    throws exactly when reading a property of [movie] does.  The animation
    delay, a function of [index], is presentation only. *)
Definition createMovieCard (movie : value) (index : nat) : outcome Card :=
  obind (getProp movie "title") (fun title =>
  obind (getProp movie "poster") (fun poster =>
  obind (getProp movie "rating") (fun rating =>
  obind (getProp movie "year") (fun year =>
  Ok {| card_ariaLabel := ("View details for " ++ ToString title)%string;
        card_index := index;
        card_poster := ToString poster;
        card_alt := (ToString title ++ " Poster")%string;
        card_rating := ToString rating;
        card_title := ToString title;
        card_year := ToString year;
        card_movie := movie |})))).

Definition appendChild (c : Card) : World -> World :=
  with_doc (fun d => set_cards (cards d ++ [c]) d).

(** The [forEach] of [renderMovies]. *)
Fixpoint appendCards (l : list value) (index : nat) : M unit :=
  match l with
  | [] => ret tt
  | movie :: rest =>
      card <- lift (createMovieCard movie index) ;;
      modify (appendChild card) ;;;
      appendCards rest (S index)
  end.

Definition renderMovies : M unit :=
  shown <- gets (fun w => filteredMovies (this w)) ;;
  match shown with
  | [] => modify showNoResults
  | _ :: _ =>
      modify hideAllStates ;;;
      modify (on_regions (set_moviesContainer "grid")) ;;;
      modify (with_doc (set_cards [])) ;;;
      appendCards shown 0
  end.

(** The arrow function [searchMovies] passes to [filter]. *)
Definition title_includes (searchTerm : string) (movie : value) : outcome bool :=
  obind (getProp movie "title") (fun title =>
  obind (call_toLowerCase title) (fun lowered =>
  Ok (includes lowered searchTerm))).

Definition searchMovies (query : string) : M unit :=
  let searchTerm := trim (toLowerCase query) in
  all <- gets (fun w => movies (this w)) ;;
  (if (searchTerm =? "")%string then
     copy <- lift (spread all) ;;
     modify (with_this (set_filteredMovies copy))
   else
     kept <- lift (call_filter all (title_includes searchTerm)) ;;
     modify (with_this (set_filteredMovies kept))) ;;;
  renderMovies.

Definition handleSearch (query : string) : M unit :=
  pending <- gets (fun w => searchTimeout (this w)) ;;
  match pending with
  | Some id => modify (clearTimeout id)
  | None => ret tt
  end ;;;
  id <- setTimeout (SearchCallback query) 300 ;;
  modify (with_this (set_searchTimeout (Some id))).

(** [openModal(movie)].  A [null] or [undefined] movie throws at the first
    property read, before anything is written; any other value never throws,
    so the seven assignments are made together. *)
Definition modal_content (movie : value) : outcome ModalContent :=
  obind (getProp movie "poster") (fun poster =>
  obind (getProp movie "title") (fun title =>
  obind (getProp movie "year") (fun year =>
  obind (getProp movie "rating") (fun rating =>
  obind (getProp movie "genre") (fun genre =>
  obind (getProp movie "description") (fun description =>
  Ok {| modalPoster_src := ToString poster;
        modalPoster_alt := (ToString title ++ " Poster")%string;
        modalTitle := toTextContent title;
        modalYear := toTextContent year;
        modalRating := toTextContent rating;
        modalGenre := toTextContent genre;
        modalDescription := toTextContent description |})))))).

Definition openModal (movie : value) : M unit :=
  content <- lift (modal_content movie) ;;
  modify (with_doc (set_modal content)) ;;;
  modify (with_doc (set_movieModal "block")) ;;;
  modify (with_doc (set_body_overflow "hidden")) ;;;
  _ <- setTimeout FocusCallback 100 ;;
  ret tt.


(** ** Loading

    [loadMovies] is an async function: it runs up to [fetch], and what
    follows the two [await]s runs when the response has arrived.  Nothing is
    read or written between the two [await]s, so the model resumes once,
    with all that the request delivered. *)
Inductive payload : Type :=
| Malformed
| Parsed (data : value).

Inductive fetch_outcome : Type :=
| Unreachable
| Response (status : nat) (body : payload).

(** [response.ok] *)
Definition response_ok (status : nat) : bool :=
  (200 <=? status) && (status <=? 299).

Definition loadMovies_begin (w : World) : World :=
  snd (fetch (showLoading w)).

Definition loadMovies_resume (o : fetch_outcome) : M unit :=
  try_catch
    (match o with
     | Unreachable => throw NetworkError
     | Response status body =>
         if negb (response_ok status) then throw (HttpError status)
         else
           match body with
           | Malformed => throw JsonSyntaxError
           | Parsed data =>
               modify (with_this (set_movies data)) ;;;
               all <- gets (fun w => movies (this w)) ;;
               copy <- lift (spread all) ;;
               modify (with_this (set_filteredMovies copy)) ;;;
               modify hideLoading ;;;
               renderMovies
           end
     end)
    (fun error => modify (console_error error) ;;; modify showError).

(** [new MovieApp()] on a page, in a browser: the fields are initialised and
    [init] binds the listeners (see [dispatch]) and starts the first load. *)
Definition new_MovieApp (page : Document) (b : Browser) : World :=
  loadMovies_begin
    {| this := {| movies := Arr []; filteredMovies := [];
                 isLoading := false; searchTimeout := None |};
       doc := page;
       env := b |}.

(** ** Events

    What can happen to the page once the listeners of [bindEvents] and of
    the cards are in place. *)
Inductive event : Type :=
| Input (text : string)
| ClickClose
| ClickModal (onBackdrop : bool)
| ClickRetry
| Keydown (key : string)
| ClickCard (n : nat)
| KeydownCard (n : nat) (key : string)
| Settle (id : nat) (o : fetch_outcome)
| Elapse (ms : nat).

(** An exception that leaves a listener or a timer callback is reported and
    the event loop goes on. *)
Definition run_handler (m : M unit) (w : World) : World :=
  match m w with
  | (Ok _, w') => w'
  | (Throw e, w') => with_env (fun b => set_uncaught (uncaught b ++ [e]) b) w'
  end.

Definition log_search (query : string) : World -> World :=
  with_env (fun b => set_searches (searches b ++ [query]) b).

(** The two arrow functions given to [setTimeout]; the one of
    [handleSearch] is entered in the ghost log when it runs. *)
Definition run_callback (cb : callback) : M unit :=
  match cb with
  | SearchCallback query => modify (log_search query) ;;; searchMovies query
  | FocusCallback => modify (with_doc (set_activeElement "closeModal"))
  end.

Fixpoint insert_by_due (t : timer) (l : list timer) : list timer :=
  match l with
  | [] => [t]
  | u :: rest =>
      if timer_due u <=? timer_due t then u :: insert_by_due t rest
      else t :: u :: rest
  end.

(** Timers run in the order of their due times, and in the order they were
    set when these are equal. *)
Definition sort_by_due (l : list timer) : list timer :=
  fold_left (fun acc t => insert_by_due t acc) l [].

Definition fire (w : World) (t : timer) : World :=
  run_handler (run_callback (timer_cb t))
    (with_env (fun b => set_clock (Nat.max (clock b) (timer_due t)) b) w).

(** [ms] milliseconds pass on the clock with no other event, and the
    timers that have become due run.  No callback of this program sets or
    clears a timer, so the timers that run are those pending at the start
    and due by the end. *)
Definition elapse (ms : nat) (w : World) : World :=
  let target := clock (env w) + ms in
  let due := filter (fun t => timer_due t <=? target) (timers (env w)) in
  let later := filter (fun t => negb (timer_due t <=? target)) (timers (env w)) in
  let w1 := with_env (set_timers later) w in
  let w2 := fold_left fire (sort_by_due due) w1 in
  with_env (set_clock target) w2.

Definition remove_id (id : nat) (l : list nat) : list nat :=
  filter (fun x => negb (x =? id)) l.

Definition is_activation (key : string) : bool :=
  (key =? "Enter")%string || (key =? " ")%string.

Definition on_keydown (key : string) : M unit :=
  open <- gets isModalOpen ;;
  if (key =? "Escape")%string && open then modify closeModal else ret tt.

Definition dispatch (e : event) (w : World) : World :=
  match e with
  | Input text => run_handler (handleSearch text) w
  | ClickClose => closeModal w
  | ClickModal onBackdrop => if onBackdrop then closeModal w else w
  | ClickRetry => loadMovies_begin w
  | Keydown key => run_handler (on_keydown key) w
  | ClickCard n =>
      match nth_error (cards (doc w)) n with
      | Some c => run_handler (openModal (card_movie c)) w
      | None => w
      end
  | KeydownCard n key =>
      match nth_error (cards (doc w)) n with
      | Some c =>
          let w1 := if is_activation key
                    then run_handler (openModal (card_movie c)) w
                    else w in
          run_handler (on_keydown key) w1
      | None => w
      end
  | Settle id o =>
      if existsb (Nat.eqb id) (inflight (env w))
      then run_handler (loadMovies_resume o)
             (with_env (fun b => set_inflight (remove_id id (inflight b)) b) w)
      else w
  | Elapse ms => elapse ms w
  end.

Definition run (es : list event) (w : World) : World :=
  fold_left (fun w e => dispatch e w) es w.

(** A page with no inline styles and a browser that has just started. *)
Definition fresh_page : Document :=
  {| regions := {| loadingState := ""; errorState := "";
                   noResultsState := ""; moviesContainer := "" |};
     cards := [];
     movieModal := "";
     body_overflow := "";
     modal := {| modalPoster_src := ""; modalPoster_alt := "";
                 modalTitle := ""; modalYear := ""; modalRating := "";
                 modalGenre := ""; modalDescription := "" |};
     activeElement := "body" |}.

Definition fresh_browser : Browser :=
  {| clock := 0; timers := []; next_timer := 1%positive;
     inflight := []; next_fetch := 0;
     console := []; uncaught := []; searches := [] |}.

Definition startup : World := new_MovieApp fresh_page fresh_browser.

(** ** Reading the state *)

Inductive ViewState : Type := Loading | Error | Empty | Populated.

Definition displayed (display : string) : bool :=
  negb (display =? "none")%string.

(** The view states whose region is rendered. *)
Definition active (w : World) : list ViewState :=
  let r := regions (doc w) in
  (if displayed (loadingState r) then [Loading] else [])
  ++ (if displayed (errorState r) then [Error] else [])
  ++ (if displayed (noResultsState r) then [Empty] else [])
  ++ (if displayed (moviesContainer r) then [Populated] else []).

(** A sample of [movies.json]. *)
Definition movie (id : Z) (title : string) (year rating : Z)
  (genre description poster : string) : value :=
  Obj [("id", Num (10 * id)); ("title", Str title); ("year", Num (10 * year));
       ("genre", Str genre); ("rating", Num rating);
       ("description", Str description); ("poster", Str poster)].

Definition dark_knight : value :=
  movie 1 "The Dark Knight" 2008 90 "Action, Crime, Drama"
    "Batman faces the Joker." "https://example.org/dk.jpg".
Definition inception : value :=
  movie 2 "Inception" 2010 88 "Action, Sci-Fi"
    "A thief enters dreams." "https://example.org/in.jpg".
Definition interstellar : value :=
  movie 3 "Interstellar" 2014 86 "Adventure, Drama, Sci-Fi"
    "Explorers travel through a wormhole." "https://example.org/is.jpg".

Definition sample : list value := [dark_knight; inception; interstellar].

(** ** [Utils.debounce]

    The application debounces in [handleSearch] and never calls
    [Utils.debounce]; the utility is modelled on its own.  A debounced
    function is a closure over [func], [wait] and the variable [timeout];
    [func] acts on a state of its own and sets no timer. *)
Module Utils.
Section Debounce.

Context {Args St : Type} (func : Args -> St -> St) (wait : nat).

(** A timer that holds a [later] closure, with the arguments it captured. *)
Record pending : Type := {
  p_id : positive;
  p_due : nat;
  p_args : Args
}.

Record Closure : Type := {
  now : nat;
  table : list pending;
  fresh : positive;
  timeout : option positive;
  target : St
}.

(** [clearTimeout(timeout)]; clearing [undefined] does nothing. *)
Definition clear (o : option positive) (l : list pending) : list pending :=
  match o with
  | Some id => filter (fun p => negb (Pos.eqb (p_id p) id)) l
  | None => l
  end.

(** [executedFunction(...args)] *)
Definition executedFunction (args : Args) (c : Closure) : Closure :=
  {| now := now c;
     table := clear (timeout c) (table c)
              ++ [{| p_id := fresh c; p_due := now c + wait; p_args := args |}];
     fresh := Pos.succ (fresh c);
     timeout := Some (fresh c);
     target := target c |}.

(** [later()] *)
Definition later (args : Args) (c : Closure) : Closure :=
  {| now := now c;
     table := clear (timeout c) (table c);
     fresh := fresh c;
     timeout := timeout c;
     target := func args (target c) |}.

(** The timer to run first among those due by [deadline]: the earliest
    due, the first set among equals. *)
Fixpoint earliest (deadline : nat) (l : list pending) : option pending :=
  match l with
  | [] => None
  | p :: rest =>
      match earliest deadline rest with
      | Some q =>
          if (p_due p <=? deadline) && (p_due p <=? p_due q) then Some p
          else Some q
      | None => if p_due p <=? deadline then Some p else None
      end
  end.

Definition take (p : pending) (c : Closure) : Closure :=
  {| now := Nat.max (now c) (p_due p);
     table := filter (fun q => negb (Pos.eqb (p_id q) (p_id p))) (table c);
     fresh := fresh c;
     timeout := timeout c;
     target := target c |}.

(** Run the timers due by [deadline], one after the other; a [later] sets
    no timer, so there are at most as many as the table holds. *)
Fixpoint run_due (fuel deadline : nat) (c : Closure) : Closure :=
  match fuel with
  | 0 => c
  | S fuel' =>
      match earliest deadline (table c) with
      | Some p => run_due fuel' deadline (later (p_args p) (take p c))
      | None => c
      end
  end.

Definition advance (ms : nat) (c : Closure) : Closure :=
  let deadline := now c + ms in
  let c' := run_due (length (table c)) deadline c in
  {| now := deadline; table := table c'; fresh := fresh c';
     timeout := timeout c'; target := target c' |}.

(** The closure as [debounce(func, wait)] returns it. *)
Definition created (clock : nat) (state : St) : Closure :=
  {| now := clock; table := []; fresh := 1%positive;
     timeout := None; target := state |}.

(** The debounced function is called with each of [calls], [gap]
    milliseconds apart. *)
Fixpoint burst (gap : nat) (calls : list Args) (c : Closure) : Closure :=
  match calls with
  | [] => c
  | args :: rest =>
      match rest with
      | [] => executedFunction args c
      | _ :: _ => burst gap rest (advance gap (executedFunction args c))
      end
  end.

(** The timers of the closure are none, or the one [timeout] names. *)
Definition at_most_one (c : Closure) : Prop :=
  table c = []
  \/ exists p, table c = [p] /\ timeout c = Some (p_id p).

(** One timer is pending, with [args], due [delay] milliseconds from now. *)
Definition waiting (args : Args) (delay : nat) (c : Closure) : Prop :=
  exists id, table c = [{| p_id := id; p_due := now c + delay; p_args := args |}]
             /\ timeout c = Some id.

End Debounce.
End Utils.

(** ** Notions the statements are written with *)

(** *** Judgements on methods *)

(** A computation leaves a component of the world as it found it, whether
    it returns or throws. *)
Definition keeps {X A : Type} (part : World -> X) (m : M A) : Prop :=
  forall w, part (snd (m w)) = part w.

(** A computation preserves a property of the world, establishes it from
    any world, or establishes it when it returns. *)
Definition preserves (P : World -> Prop) {A : Type} (m : M A) : Prop :=
  forall w, P w -> P (snd (m w)).
Definition establishes (P : World -> Prop) {A : Type} (m : M A) : Prop :=
  forall w, P (snd (m w)).
Definition establishes_on_return (P : World -> Prop) {A : Type} (m : M A) : Prop :=
  forall w a, fst (m w) = Ok a -> P (snd (m w)).

(** *** Searching *)

(** The title of a movie, when it has one that is a string. *)
Definition title_of (v : value) : option string :=
  match v with
  | Obj fields =>
      match lookup "title" fields with
      | Some (Str t) => Some t
      | _ => None
      end
  | _ => None
  end.

Definition titled (v : value) : Prop := title_of v <> None.

(** The test [searchMovies] applies to a titled movie. *)
Definition matches (term : string) (v : value) : bool :=
  match title_of v with
  | Some t => includes (toLowerCase t) term
  | None => false
  end.



(** *** Rendering *)

Definition is_nullish (v : value) : bool :=
  match v with
  | Undefined | Null => true
  | _ => false
  end.


Definition view_regions (w : World) : Regions := regions (doc w).

(** One view state is rendered, and no other. *)
Definition one_active (w : World) : Prop := exists v, active w = [v].

(** What a load decides: the collection, the filtered view and the view
    state. *)
Definition view (w : World) : value * list value * list ViewState :=
  (movies (this w), filteredMovies (this w), active w).

(** *** The search channel *)

Definition is_search (t : timer) : bool :=
  match timer_cb t with
  | SearchCallback _ => true
  | FocusCallback => false
  end.

Definition pending_searches (w : World) : list timer :=
  filter is_search (timers (env w)).

(** The queries of the search callbacks among the timers [l]. *)
Definition queries (l : list timer) : list string :=
  flat_map (fun t => match timer_cb t with
                     | SearchCallback q => [q]
                     | FocusCallback => []
                     end) l.

(** What the search channel consists of. *)
Definition timer_side (w : World) : list timer * positive * option positive :=
  (timers (env w), next_timer (env w), searchTimeout (this w)).

(** Timer identifiers are fresh and distinct, and a pending search timer is
    the one [searchTimeout] remembers. *)
Definition debounce_inv (w : World) : Prop :=
  Forall (fun t => (timer_id t < next_timer (env w))%positive) (timers (env w))
  /\ NoDup (map timer_id (timers (env w)))
  /\ Forall (fun t => is_search t = true ->
                      searchTimeout (this w) = Some (timer_id t))
       (timers (env w)).

(** One search timer is pending: it carries [query] and is due [delay]
    milliseconds from now. *)
Definition armed (query : string) (delay : nat) (w : World) : Prop :=
  debounce_inv w
  /\ exists t, pending_searches w = [t]
               /\ timer_cb t = SearchCallback query
               /\ timer_due t = clock (env w) + delay.

(** The timers left once [handleSearch] has cleared the one it remembers. *)
Definition after_clear (w : World) : list timer :=
  match searchTimeout (this w) with
  | Some id => filter (fun t => negb (Pos.eqb (timer_id t) id)) (timers (env w))
  | None => timers (env w)
  end.

(** The timer [handleSearch] sets for [query]. *)
Definition search_timer (query : string) (w : World) : timer :=
  {| timer_id := next_timer (env w);
     timer_due := clock (env w) + 300;
     timer_cb := SearchCallback query |}.

(** The timer [openModal] sets to move the focus. *)
Definition focus_timer (w : World) : timer :=
  {| timer_id := next_timer (env w);
     timer_due := clock (env w) + 100;
     timer_cb := FocusCallback |}.

(** The field receives the texts [qs], [gap] milliseconds apart. *)
Fixpoint keystrokes (gap : nat) (qs : list string) : list event :=
  match qs with
  | [] => []
  | q :: rest =>
      match rest with
      | [] => [Input q]
      | _ :: _ => Input q :: Elapse gap :: keystrokes gap rest
      end
  end.

(** *** Loading *)







Definition success (items : list value) : fetch_outcome :=
  Response 200 (Parsed (Arr items)).

(** *** The overlay *)

Inductive overlay_call : Type :=
| CallOpen (movie : value)
| CallClose.

Definition call (c : overlay_call) (w : World) : World :=
  match c with
  | CallOpen movie => run_handler (openModal movie) w
  | CallClose => closeModal w
  end.

Definition calls (cs : list overlay_call) (w : World) : World :=
  fold_left (fun w c => call c w) cs w.

Definition scroll_locked (w : World) : bool :=
  (body_overflow (doc w) =? "hidden")%string.

(** Background scrolling is suppressed exactly when the overlay is open. *)
Definition scroll_inv (w : World) : Prop :=
  body_overflow (doc w) = "hidden" <-> isModalOpen w = true.

(** A step from [before] to [after] gives background scrolling back. *)
Definition restores_scroll (before after : World) : bool :=
  scroll_locked before && negb (scroll_locked after).



(** *** Worlds for the examples *)

(** The page once the first load has delivered [sample]. *)
Definition loaded : World := run [Settle 0 (success sample)] startup.

(** The page with the first load pending and a second one started. *)
Definition two_pending : World := dispatch ClickRetry startup.




(** ** The remaining utilities and observations *)

(** [Utils.truncateText(text, maxLength)], for an integer [maxLength];
    [substr(0, n)] takes nothing when [n] is negative. *)
Definition truncateText (text : string) (maxLength : Z) : string :=
  if (Z.of_nat (String.length text) <=? maxLength)%Z then text
  else (substring 0 (Z.to_nat maxLength) text ++ "...")%string.


(** The two style properties the overlay is opened and closed with. *)
Definition overlay_styles (w : World) : string * string :=
  (movieModal (doc w), body_overflow (doc w)).


(** A collection with an item that has no title, once loaded. *)
Definition loaded_untitled : World :=
  run [Settle 0 (success [dark_knight; Num 10])] startup.

(** * Properties *)

(** ** The scenarios of the specification, run on the model *)

Example scenario_load_succeeds :
  active loaded = [Populated]
  /\ map card_title (cards (doc loaded))
     = ["The Dark Knight"; "Inception"; "Interstellar"]
  /\ map card_index (cards (doc loaded)) = [0; 1; 2].
Proof. repeat split. Qed.

Example scenario_search_matches :
  filteredMovies (this (run [Input "dark"; Elapse 300] loaded)) = [dark_knight]
  /\ active (run [Input "dark"; Elapse 300] loaded) = [Populated].
Proof. split; vm_compute; reflexivity. Qed.

Example scenario_slow_typing :
  searches (env (run [Input "d"; Elapse 300; Input "da"; Elapse 300] loaded))
  = ["d"; "da"].
Proof. vm_compute; reflexivity. Qed.

Example scenario_search_without_match :
  active (run [Input "xyz-no-match"; Elapse 300] loaded) = [Empty]
  /\ movies (this (run [Input "xyz-no-match"; Elapse 300] loaded)) = Arr sample.
Proof. split; vm_compute; reflexivity. Qed.

Example scenario_load_fails_then_retry :
  active (run [Settle 0 Unreachable] startup) = [Error]
  /\ active (run [Settle 0 Unreachable; ClickRetry] startup) = [Loading]
  /\ inflight (env (run [Settle 0 Unreachable; ClickRetry] startup)) = [1].
Proof. repeat split. Qed.

Example scenario_select_and_dismiss :
  modalTitle (modal (doc (run [ClickCard 1] loaded))) = "Inception"
  /\ body_overflow (doc (run [ClickCard 1] loaded)) = "hidden"
  /\ isModalOpen (run [ClickCard 1; ClickModal true] loaded) = false
  /\ body_overflow (doc (run [ClickCard 1; ClickModal true] loaded)) = "auto"
  /\ isModalOpen (run [ClickCard 1; ClickModal false] loaded) = true
  /\ isModalOpen (run [ClickCard 1; Keydown "Escape"] loaded) = false
  /\ activeElement (doc (run [ClickCard 1; Elapse 100] loaded)) = "closeModal".
Proof. repeat split; vm_compute; reflexivity. Qed.

(** A payload that parses but cannot be spread is stored before the spread
    throws; the search that follows finds a collection without [filter]. *)
Example scenario_object_payload :
  movies (this (run [Settle 0 (Response 200 (Parsed (Obj [])))] startup)) = Obj []
  /\ active (run [Settle 0 (Response 200 (Parsed (Obj [])))] startup) = [Error]
  /\ uncaught (env (run [Settle 0 (Response 200 (Parsed (Obj [])));
                          Input "a"; Elapse 300] startup))
     = [TypeError].
Proof. repeat split; vm_compute; reflexivity. Qed.

(** ** Strings *)
Section StringFacts.







Lemma prefix_app (p s : string) :
  prefix p s = true <-> exists post, s = (p ++ post)%string.
Proof.
  revert s. induction p as [|c p IH]; intros s.
  - split; [exists s; reflexivity|]. now destruct s.
  - destruct s as [|d s]; simpl.
    + split; [discriminate | intros [post H]; simpl in H; discriminate].
    + destruct (ascii_dec c d) as [->|Hne].
      * rewrite IH. split; intros [post H]; exists post; [now rewrite H|].
        simpl in H. now injection H.
      * split; [discriminate|]. intros [post H]. simpl in H. congruence.
Qed.




End StringFacts.

(** ** Reasoning about methods

    Three judgements on a computation: it keeps a component of the world,
    it preserves a property of the world, it establishes a property of the
    world (from any world when it ends, or only when it returns). *)
Section Judgements.

Context {X : Type} (part : World -> X) (P : World -> Prop).

Lemma keeps_ret {A} (a : A) : keeps part (ret a).
Proof. intro w; reflexivity. Qed.

Lemma keeps_throw {A} (e : js_error) : keeps part (@throw A e).
Proof. intro w; reflexivity. Qed.

Lemma keeps_lift {A} (o : outcome A) : keeps part (lift o).
Proof. intro w; reflexivity. Qed.

Lemma keeps_gets {A} (f : World -> A) : keeps part (gets f).
Proof. intro w; reflexivity. Qed.

Lemma keeps_modify (f : World -> World) :
  (forall w, part (f w) = part w) -> keeps part (modify f).
Proof. intros H w; apply H. Qed.

Lemma keeps_bind {A B} (m : M A) (k : A -> M B) :
  keeps part m -> (forall a, keeps part (k a)) -> keeps part (bind m k).
Proof.
  intros Hm Hk w. unfold bind. specialize (Hm w).
  destruct (m w) as [[a|e] w']; simpl in *; [|exact Hm].
  now rewrite Hk.
Qed.

Lemma keeps_try_catch (body : M unit) (handler : js_error -> M unit) :
  keeps part body -> (forall e, keeps part (handler e)) ->
  keeps part (try_catch body handler).
Proof.
  intros Hb Hh w. unfold try_catch. specialize (Hb w).
  destruct (body w) as [[[]|e] w']; simpl in *; [exact Hb|].
  now rewrite Hh.
Qed.

Lemma preserves_bind {A B} (m : M A) (k : A -> M B) :
  preserves P m -> (forall a, preserves P (k a)) -> preserves P (bind m k).
Proof.
  intros Hm Hk w Hw. unfold bind. specialize (Hm w Hw).
  destruct (m w) as [[a|e] w']; simpl in *; [|exact Hm].
  now apply Hk.
Qed.

Lemma establishes_preserves {A} (m : M A) : establishes P m -> preserves P m.
Proof. intros H w _; apply H. Qed.

Lemma establishes_returning {A} (m : M A) :
  establishes P m -> establishes_on_return P m.
Proof. intros H w a _; apply H. Qed.

Lemma establishes_bind {A B} (m : M A) (k : A -> M B) :
  (forall a, establishes_on_return P (k a)) ->
  establishes_on_return P (bind m k).
Proof.
  intros Hk w b. unfold bind.
  destruct (m w) as [[a|e] w']; simpl; [apply Hk | discriminate].
Qed.

Lemma establishes_try_catch (body : M unit) (handler : js_error -> M unit) :
  establishes_on_return P body -> (forall e, establishes P (handler e)) ->
  establishes P (try_catch body handler).
Proof.
  intros Hb Hh w. unfold try_catch. specialize (Hb w).
  destruct (body w) as [[[]|e] w']; simpl in *; [now apply (Hb tt) | apply Hh].
Qed.

(** A property that only looks at a kept component is preserved. *)
Lemma keeps_preserves {A} (m : M A) :
  (forall w w', part w = part w' -> P w -> P w') ->
  keeps part m -> preserves P m.
Proof. intros Hdep Hk w Hw. apply (Hdep w); [symmetry; apply Hk | exact Hw]. Qed.

Lemma run_handler_preserves (m : M unit) :
  (forall w e, P w -> P (with_env (fun b => set_uncaught (uncaught b ++ [e]) b) w)) ->
  preserves P m -> forall w, P w -> P (run_handler m w).
Proof.
  intros Hu Hm w Hw. unfold run_handler. specialize (Hm w Hw).
  destruct (m w) as [[[]|e] w']; simpl in *; [exact Hm | now apply Hu].
Qed.

End Judgements.

(** Decompose a [keeps] goal along the structure of the method, down to
    [renderMovies], which has its own lemmas. *)
Ltac frame :=
  repeat first
    [ apply keeps_ret | apply keeps_throw | apply keeps_lift
    | apply keeps_gets
    | apply keeps_modify; intro; reflexivity
    | lazymatch goal with
      | |- keeps _ renderMovies => fail
      | |- keeps _ (appendCards _ _) => fail
      | _ => apply keeps_bind; [|intro]
      end
    | apply keeps_try_catch; [|intro]
    | match goal with
      | |- keeps _ (match ?x with _ => _ end) => destruct x
      end
    | assumption ].

(** ** Rendering *)
Section Rendering.

Lemma appendCards_keeps {X} (part : World -> X) (l : list value) :
  (forall c w, part (appendChild c w) = part w) ->
  forall index, keeps part (appendCards l index).
Proof.
  intros H. induction l as [|movie rest IH]; intro index; simpl.
  - apply keeps_ret.
  - apply keeps_bind; [apply keeps_lift | intro c].
    apply keeps_bind; [apply keeps_modify; apply H | intro; apply IH].
Qed.

Lemma renderMovies_keeps_this : keeps this renderMovies.
Proof.
  unfold renderMovies. apply keeps_bind; [apply keeps_gets | intros [|m l]].
  - frame.
  - frame. now apply appendCards_keeps.
Qed.

Lemma renderMovies_keeps_env : keeps env renderMovies.
Proof.
  unfold renderMovies. apply keeps_bind; [apply keeps_gets | intros [|m l]].
  - frame.
  - frame. now apply appendCards_keeps.
Qed.

Lemma active_regions (w w' : World) :
  regions (doc w) = regions (doc w') -> active w = active w'.
Proof. unfold active. now intros ->. Qed.

(** Whichever way [renderMovies] ends, one region is rendered: the empty
    one when there is nothing to show, the grid otherwise. *)
Lemma renderMovies_active (w : World) :
  active (snd (renderMovies w)) =
  [match filteredMovies (this w) with [] => Empty | _ :: _ => Populated end].
Proof.
  unfold renderMovies, bind, gets. simpl.
  destruct (filteredMovies (this w)) as [|m l]; [reflexivity|].
  unfold modify. simpl.
  set (w1 := with_doc (set_cards []) _).
  pose proof (appendCards_keeps (fun w => regions (doc w)) (m :: l)
                (fun c w => eq_refl) 0 w1) as H.
  transitivity (active w1); [apply active_regions; exact H | reflexivity].
Qed.








End Rendering.

(** ** Searching *)
Section Searching.

Lemma title_includes_titled (term : string) (v : value) :
  titled v -> title_includes term v = Ok (matches term v).
Proof.
  unfold titled, matches, title_includes, title_of. intros H.
  destruct v; try now elim H. simpl.
  destruct (lookup "title" fields) as [[]|]; try now elim H.
  reflexivity.
Qed.








End Searching.




(** ** Loading *)
Section LoadingFacts.

Lemma dispatch_Settle (w : World) (id : nat) (o : fetch_outcome) :
  In id (inflight (env w)) ->
  dispatch (Settle id o) w =
  run_handler (loadMovies_resume o)
    (with_env (fun b => set_inflight (remove_id id (inflight b)) b) w).
Proof.
  intros Hid. simpl.
  replace (existsb (Nat.eqb id) (inflight (env w))) with true; [reflexivity|].
  symmetry. apply existsb_exists. exists id. split; [exact Hid|].
  apply Nat.eqb_refl.
Qed.

(** The [catch] clause takes every exception of the [try] block. *)
Lemma loadMovies_resume_returns (o : fetch_outcome) (w : World) :
  fst (loadMovies_resume o w) = Ok tt.
Proof.
  unfold loadMovies_resume, try_catch.
  match goal with |- context [match ?b w with _ => _ end] =>
    destruct (b w) as [[[]|e] w'] end; reflexivity.
Qed.

Lemma run_handler_resume (o : fetch_outcome) (w : World) :
  run_handler (loadMovies_resume o) w = snd (loadMovies_resume o w).
Proof.
  unfold run_handler. pose proof (loadMovies_resume_returns o w) as H.
  destruct (loadMovies_resume o w) as [[[]|e] w']; [reflexivity | discriminate].
Qed.

(** A load that delivers a value that can be spread: the collection and
    the filtered view are replaced, the loading flag is cleared, and the
    view is rendered; an exception of the rendering is reported and the
    error region shown. *)
Lemma loadMovies_resume_parsed
  (status : nat) (data : value) (items : list value) (w : World) :
  response_ok status = true ->
  spread data = Ok items ->
  let w1 := hideLoading
              (with_this (set_filteredMovies items)
                 (with_this (set_movies data) w)) in
  loadMovies_resume (Response status (Parsed data)) w =
  match renderMovies w1 with
  | (Ok _, w') => (Ok tt, w')
  | (Throw e, w') => (Ok tt, showError (console_error e w'))
  end.
Proof.
  intros Hok Hspread w1. unfold loadMovies_resume, try_catch. rewrite Hok. simpl.
  unfold bind at 1 2 3 4 5. unfold modify at 1 2 3. unfold gets, lift. simpl.
  rewrite Hspread. fold w1. destruct (renderMovies w1) as [[[]|e] w']; reflexivity.
Qed.

Lemma loadMovies_resume_success (status : nat) (items : list value) (w : World) :
  response_ok status = true ->
  let w1 := hideLoading
              (with_this (set_filteredMovies items)
                 (with_this (set_movies (Arr items)) w)) in
  loadMovies_resume (Response status (Parsed (Arr items))) w =
  match renderMovies w1 with
  | (Ok _, w') => (Ok tt, w')
  | (Throw e, w') => (Ok tt, showError (console_error e w'))
  end.
Proof. intros Hok. now apply loadMovies_resume_parsed. Qed.



Lemma loadMovies_resume_this (status : nat) (items : list value) (w : World) :
  response_ok status = true ->
  this (snd (loadMovies_resume (Response status (Parsed (Arr items))) w)) =
  {| movies := Arr items; filteredMovies := items;
     isLoading := false; searchTimeout := searchTimeout (this w) |}.
Proof.
  intros Hok. rewrite (loadMovies_resume_success status items w Hok).
  match goal with |- context [renderMovies ?w1] =>
    pose proof (renderMovies_keeps_this w1) as H;
    destruct (renderMovies w1) as [[[]|e] w'] end;
    simpl in *; rewrite H; reflexivity.
Qed.

End LoadingFacts.

Section LoadingFrame.

Lemma keeps_map {X Y A} (part : World -> X) (f : X -> Y) (m : M A) :
  keeps part m -> keeps (fun w => f (part w)) m.
Proof. intros H w. now rewrite H. Qed.

(** Apart from what it logs to the console, a resumed load leaves the
    browser as it was. *)
Lemma loadMovies_resume_env (o : fetch_outcome) :
  keeps (fun w => set_console [] (env w)) (loadMovies_resume o).
Proof.
  unfold loadMovies_resume. frame.
  apply (keeps_map env (set_console [])), renderMovies_keeps_env.
Qed.

Lemma loadMovies_resume_inflight (o : fetch_outcome) (w : World) :
  inflight (env (snd (loadMovies_resume o w))) = inflight (env w).
Proof. exact (f_equal inflight (loadMovies_resume_env o w)). Qed.


Lemma remove_id_other (id id' : nat) (l : list nat) :
  id <> id' -> In id l -> In id (remove_id id' l).
Proof.
  intros Hne Hin. apply filter_In. split; [exact Hin|].
  apply negb_true_iff, Nat.eqb_neq, Hne.
Qed.

Lemma appendCards_outcome (l : list value) (index : nat) (w w' : World) :
  fst (appendCards l index w) = fst (appendCards l index w').
Proof.
  revert index w w'. induction l as [|movie rest IH]; intros; simpl; [reflexivity|].
  unfold bind, lift, modify. destruct (createMovieCard movie index); [|reflexivity].
  apply IH.
Qed.

(** Whether [renderMovies] returns, and what it shows, depends on the
    filtered view only. *)
Lemma renderMovies_outcome (w w' : World) :
  filteredMovies (this w) = filteredMovies (this w') ->
  fst (renderMovies w) = fst (renderMovies w').
Proof.
  intros H. unfold renderMovies, bind, gets. simpl. rewrite H.
  destruct (filteredMovies (this w')); [reflexivity|].
  unfold modify. apply appendCards_outcome.
Qed.

(** The view state a successful load leaves does not depend on the state
    it found. *)
Lemma loadMovies_resume_active (status : nat) (items : list value) (w w' : World) :
  response_ok status = true ->
  active (snd (loadMovies_resume (Response status (Parsed (Arr items))) w)) =
  active (snd (loadMovies_resume (Response status (Parsed (Arr items))) w')).
Proof.
  intros Hok. rewrite !(loadMovies_resume_success status items _ Hok).
  set (w1 := hideLoading _). set (w1' := hideLoading _).
  pose proof (renderMovies_outcome w1 w1' eq_refl) as Hfst.
  pose proof (renderMovies_active w1) as Ha.
  pose proof (renderMovies_active w1') as Ha'.
  destruct (renderMovies w1) as [[[]|e] v], (renderMovies w1') as [[[]|e'] v'];
    simpl in *; try discriminate; [congruence | reflexivity].
Qed.

End LoadingFrame.

(** C6: when a load succeeds, the fetched items become both the collection
    and the filtered view, whatever filter was in effect. *)
Theorem load_replaces_collection_and_view
  (w : World) (id status : nat) (items : list value)
  (Hpending : In id (inflight (env w)))
  (Hok : response_ok status = true) :
  let w' := dispatch (Settle id (Response status (Parsed (Arr items)))) w in
  movies (this w') = Arr items
  /\ filteredMovies (this w') = items
  /\ filteredMovies (this w') = match movies (this w') with
                                | Arr all => all
                                | _ => []
                                end.
Proof.
  intros w'. subst w'. rewrite (dispatch_Settle w id _ Hpending).
  rewrite run_handler_resume, (loadMovies_resume_this status items _ Hok).
  repeat split.
Qed.

Lemma load_replaces_collection_and_view_witness :
  In 0 (inflight (env startup))
  /\ response_ok 200 = true
  /\ movies (this (dispatch (Settle 0 (Response 200 (Parsed (Arr sample)))) startup))
     = Arr sample
  /\ filteredMovies
       (this (dispatch (Settle 0 (Response 200 (Parsed (Arr sample)))) startup))
     = sample.
Proof.
  pose proof (load_replaces_collection_and_view startup 0 200 sample
                (or_introl eq_refl) eq_refl) as (Hm & Hf & _).
  exact (conj (or_introl eq_refl) (conj eq_refl (conj Hm Hf))).
Defined.

(** C5, as stated, fails: the first load is still pending when a second
    one is started; the second delivers one movie, then the first delivers
    three, and the three replace the one. *)
Lemma stale_load_overwrites :
  inflight (env two_pending) = [0; 1]
  /\ view (run [Settle 1 (success [inception])] two_pending)
     = (Arr [inception], [inception], [Populated])
  /\ view (run [Settle 1 (success [inception]); Settle 0 (success sample)]
             two_pending)
     = (Arr sample, sample, [Populated])
  /\ view (run [Settle 1 (success [inception]); Settle 0 (success sample)]
             two_pending)
     <> view (run [Settle 1 (success [inception])] two_pending).
Proof.
  repeat split; try reflexivity. discriminate.
Qed.

(** C5, amended: nothing supersedes a pending load.  Each response is
    applied when it arrives, so when the earlier attempt's result arrives
    after the later attempt's, the collection, the filtered view and the
    view state are those of the earlier attempt: the last arrival wins. *)
Theorem last_arrival_wins
  (w : World) (older newer s_old s_new : nat) (old_items new_items : list value)
  (Holder : In older (inflight (env w)))
  (Hnewer : In newer (inflight (env w)))
  (Hdistinct : older <> newer)
  (Hok_old : response_ok s_old = true)
  (Hok_new : response_ok s_new = true) :
  let w1 := dispatch (Settle newer (Response s_new (Parsed (Arr new_items)))) w in
  let w2 := dispatch (Settle older (Response s_old (Parsed (Arr old_items)))) w1 in
  (movies (this w1) = Arr new_items /\ filteredMovies (this w1) = new_items)
  /\ In older (inflight (env w1))
  /\ movies (this w2) = Arr old_items
  /\ filteredMovies (this w2) = old_items
  /\ active w2 =
     active (dispatch (Settle older (Response s_old (Parsed (Arr old_items)))) w).
Proof.
  intros w1 w2.
  assert (Hstill : In older (inflight (env w1))).
  { subst w1. rewrite (dispatch_Settle w newer _ Hnewer), run_handler_resume.
    rewrite loadMovies_resume_inflight. simpl. now apply remove_id_other. }
  split; [|split; [exact Hstill|]].
  - subst w1. rewrite (dispatch_Settle w newer _ Hnewer), run_handler_resume.
    rewrite (loadMovies_resume_this s_new new_items _ Hok_new). now split.
  - subst w2. rewrite (dispatch_Settle w1 older _ Hstill).
    rewrite (dispatch_Settle w older _ Holder), !run_handler_resume.
    rewrite (loadMovies_resume_this s_old old_items _ Hok_old).
    repeat split. now apply loadMovies_resume_active.
Qed.

Lemma last_arrival_wins_witness :
  In 0 (inflight (env two_pending)) /\ In 1 (inflight (env two_pending))
  /\ 0 <> 1
  /\ response_ok 200 = true
  /\ movies (this (run [Settle 1 (success [inception]); Settle 0 (success sample)]
                     two_pending))
     = Arr sample
  /\ filteredMovies
       (this (run [Settle 1 (success [inception]); Settle 0 (success sample)]
                two_pending))
     = sample.
Proof.
  pose proof (last_arrival_wins two_pending 0 1 200 200 sample [inception]
                (or_introl eq_refl) (or_intror (or_introl eq_refl))
                (fun H => O_S 0 H) eq_refl eq_refl) as (_ & _ & Hm & Hf & _).
  refine (conj (or_introl eq_refl)
            (conj (or_intror (or_introl eq_refl))
               (conj (fun H => O_S 0 H) (conj eq_refl (conj Hm Hf))))).
Defined.




Section ViewFacts.



End ViewFacts.



(** ** The view-state invariant *)
Section ViewInvariant.

Lemma one_active_regions (w w' : World) :
  regions (doc w) = regions (doc w') -> one_active w -> one_active w'.
Proof. intros H [v Hv]. exists v. now rewrite <- (active_regions w w' H). Qed.

Lemma regions_preserves {A} (m : M A) :
  keeps view_regions m -> preserves one_active m.
Proof. apply keeps_preserves. exact one_active_regions. Qed.

Lemma renderMovies_one_active : establishes one_active renderMovies.
Proof. intro w. eexists. apply renderMovies_active. Qed.

Lemma searchMovies_one_active (q : string) :
  preserves one_active (searchMovies q).
Proof.
  unfold searchMovies.
  apply preserves_bind; [apply regions_preserves; frame | intros all].
  apply preserves_bind; [apply regions_preserves; frame | intros _].
  apply establishes_preserves, renderMovies_one_active.
Qed.

Lemma loadMovies_resume_one_active (o : fetch_outcome) :
  establishes one_active (loadMovies_resume o).
Proof.
  unfold loadMovies_resume. apply establishes_try_catch.
  - destruct o as [|status body]; [intros w a H; discriminate|].
    destruct (negb (response_ok status)); [intros w a H; discriminate|].
    destruct body as [|data]; [intros w a H; discriminate|].
    do 5 (apply establishes_bind; intro).
    apply establishes_returning, renderMovies_one_active.
  - intros e w. now exists Error.
Qed.

Lemma handleSearch_regions (q : string) : keeps view_regions (handleSearch q).
Proof. unfold handleSearch, setTimeout. frame. Qed.

Lemma openModal_regions (movie : value) : keeps view_regions (openModal movie).
Proof. unfold openModal, setTimeout. frame. Qed.

Lemma on_keydown_regions (key : string) : keeps view_regions (on_keydown key).
Proof. unfold on_keydown. frame. Qed.

Lemma run_callback_one_active (cb : callback) :
  preserves one_active (run_callback cb).
Proof.
  destruct cb; simpl.
  - apply preserves_bind; [apply regions_preserves; frame | intros _].
    apply searchMovies_one_active.
  - apply regions_preserves. frame.
Qed.

Lemma handled_one_active (m : M unit) (w : World) :
  preserves one_active m -> one_active w -> one_active (run_handler m w).
Proof.
  intros Hm. apply run_handler_preserves; [|exact Hm].
  intros v e. now apply one_active_regions.
Qed.

Lemma fire_one_active (w : World) (t : timer) :
  one_active w -> one_active (fire w t).
Proof.
  intros H. unfold fire.
  apply handled_one_active; [apply run_callback_one_active|].
  revert H. now apply one_active_regions.
Qed.

Lemma fired_one_active (l : list timer) (w : World) :
  one_active w -> one_active (fold_left fire l w).
Proof.
  revert w. induction l as [|t l IH]; intros w H; [exact H|].
  simpl. apply IH, fire_one_active, H.
Qed.

Lemma elapse_one_active (ms : nat) (w : World) :
  one_active w -> one_active (elapse ms w).
Proof.
  intros H. unfold elapse.
  match goal with |- one_active (with_env _ ?v) =>
    apply (one_active_regions v); [reflexivity|] end.
  apply fired_one_active. revert H. now apply one_active_regions.
Qed.

Lemma dispatch_one_active (e : event) (w : World) :
  one_active w -> one_active (dispatch e w).
Proof.
  intros H. destruct e; simpl.
  - apply handled_one_active; [apply regions_preserves, handleSearch_regions | exact H].
  - revert H. now apply one_active_regions.
  - destruct onBackdrop; [|exact H]. revert H. now apply one_active_regions.
  - now exists Loading.
  - apply handled_one_active; [apply regions_preserves, on_keydown_regions | exact H].
  - destruct (nth_error (cards (doc w)) n); [|exact H].
    apply handled_one_active; [apply regions_preserves, openModal_regions | exact H].
  - destruct (nth_error (cards (doc w)) n); [|exact H].
    apply handled_one_active; [apply regions_preserves, on_keydown_regions|].
    destruct (is_activation key); [|exact H].
    apply handled_one_active; [apply regions_preserves, openModal_regions | exact H].
  - destruct (existsb (Nat.eqb id) (inflight (env w))); [|exact H].
    rewrite run_handler_resume. apply loadMovies_resume_one_active.
  - now apply elapse_one_active.
Qed.

Lemma run_one_active (es : list event) (w : World) :
  one_active w -> one_active (run es w).
Proof.
  revert w. induction es as [|e es IH]; intros w H; [exact H|].
  simpl. apply IH, dispatch_one_active, H.
Qed.

End ViewInvariant.

(** C2: once the application has started, whatever events follow, exactly
    one of the four state regions is rendered; each entry into a state hides
    all four regions and then shows its own. *)
Theorem exactly_one_view_state (page : Document) (b : Browser) (es : list event) :
  (exists v, active (run es (new_MovieApp page b)) = [v])
  /\ active (new_MovieApp page b) = [Loading]
  /\ (forall w, active (hideAllStates w) = []
                /\ active (showLoading w) = [Loading]
                /\ active (showError w) = [Error]
                /\ active (showNoResults w) = [Empty]
                /\ active (snd (renderMovies w))
                   = [match filteredMovies (this w) with
                      | [] => Empty
                      | _ :: _ => Populated
                      end]).
Proof.
  split; [|split].
  - apply run_one_active. now exists Loading.
  - reflexivity.
  - intros w. repeat split. apply renderMovies_active.
Qed.

(** ** The overlay *)

(** C8: [closeModal] closes the overlay and gives scrolling back from any
    state, whatever item was displayed; a second call changes nothing, so
    scrolling is given back by the first call only, and only if it was
    suppressed. *)
Theorem closeModal_idempotent (w : World) :
  closeModal (closeModal w) = closeModal w
  /\ isModalOpen (closeModal w) = false
  /\ scroll_locked (closeModal w) = false
  /\ restores_scroll w (closeModal w) = scroll_locked w
  /\ restores_scroll (closeModal w) (closeModal (closeModal w)) = false
  /\ (forall movie, isModalOpen (closeModal (run_handler (openModal movie) w)) = false).
Proof.
  repeat split. unfold restores_scroll. simpl. apply andb_true_r.
Qed.

Section OverlayFacts.


Lemma call_scroll_inv (c : overlay_call) (w : World) :
  scroll_inv w -> scroll_inv (call c w).
Proof.
  intros H. destruct c as [movie|]; [|split; discriminate].
  destruct movie; try exact H; split; reflexivity.
Qed.

Lemma calls_scroll_inv (cs : list overlay_call) (w : World) :
  scroll_inv w -> scroll_inv (calls cs w).
Proof.
  revert w. induction cs as [|c cs IH]; intros w H; [exact H|].
  simpl. apply IH, call_scroll_inv, H.
Qed.

End OverlayFacts.



(** C10: from a state in which scrolling is suppressed exactly when the
    overlay is open, any sequence of [openModal] and [closeModal] calls
    leads to such a state, and each call does; [closeModal] writes the
    value "auto", whatever the value was before the overlay was opened. *)
Theorem scroll_locked_iff_open (w : World) (cs : list overlay_call)
  (Hinv : scroll_inv w) :
  scroll_inv (calls cs w)
  /\ (forall c, scroll_inv (call c w))
  /\ body_overflow (doc (closeModal w)) = "auto"
  /\ (forall movie,
        body_overflow (doc (calls [CallOpen movie; CallClose] w)) = "auto").
Proof.
  split; [now apply calls_scroll_inv|].
  split; [intro c; now apply call_scroll_inv|].
  repeat split.
Qed.

Lemma scroll_locked_iff_open_witness :
  scroll_inv startup
  /\ scroll_inv (calls [CallOpen inception; CallClose; CallOpen dark_knight] startup)
  /\ body_overflow (doc (calls [CallOpen inception; CallClose] startup)) = "auto".
Proof.
  assert (H : scroll_inv startup) by (split; discriminate).
  pose proof (scroll_locked_iff_open startup
                [CallOpen inception; CallClose; CallOpen dark_knight] H)
    as (Hcs & _ & _ & Hauto).
  exact (conj H (conj Hcs (Hauto inception))).
Defined.

(** ** The debounced search channel *)
Section TimerFacts.

Lemma insert_by_due_perm (t : timer) (l : list timer) :
  Permutation (insert_by_due t l) (t :: l).
Proof.
  induction l as [|u l IH]; simpl; [apply Permutation_refl|].
  destruct (timer_due u <=? timer_due t); [|apply Permutation_refl].
  eapply Permutation_trans; [apply perm_skip, IH | apply perm_swap].
Qed.

Lemma sort_by_due_perm (l : list timer) : Permutation (sort_by_due l) l.
Proof.
  unfold sort_by_due.
  assert (H : forall acc,
             Permutation (fold_left (fun acc t => insert_by_due t acc) l acc)
               (l ++ acc)).
  { induction l as [|t l IH]; intro acc; simpl; [apply Permutation_refl|].
    eapply Permutation_trans; [apply IH|].
    eapply Permutation_trans;
      [apply Permutation_app_head, insert_by_due_perm|].
    apply Permutation_sym, Permutation_middle. }
  specialize (H []). now rewrite app_nil_r in H.
Qed.

Lemma short_perm {A} (l l' : list A) :
  Permutation l l' -> length l <= 1 -> l' = l.
Proof.
  intros H Hlen. destruct l as [|a [|b l]]; simpl in Hlen; [| |lia].
  - now apply Permutation_nil.
  - now apply Permutation_length_1_inv.
Qed.

Lemma queries_sorted (l : list timer) :
  length (queries l) <= 1 -> queries (sort_by_due l) = queries l.
Proof.
  intros H. apply short_perm; [|exact H].
  apply Permutation_flat_map, Permutation_sym, sort_by_due_perm.
Qed.

Lemma queries_filter (l : list timer) :
  queries (filter is_search l) = queries l.
Proof.
  induction l as [|t l IH]; simpl; [reflexivity|].
  unfold is_search at 1.
  destruct (timer_cb t) eqn:E; simpl; rewrite ?E; simpl; now rewrite IH.
Qed.

Lemma queries_length (l : list timer) :
  length (queries l) = length (filter is_search l).
Proof.
  induction l as [|t l IH]; simpl; [reflexivity|].
  unfold is_search at 1. destruct (timer_cb t); simpl; now rewrite IH.
Qed.

Lemma filter_swap {A} (p q : A -> bool) (l : list A) :
  filter p (filter q l) = filter q (filter p l).
Proof.
  induction l as [|x l IH]; simpl; [reflexivity|].
  destruct (p x) eqn:Ep, (q x) eqn:Eq; simpl; rewrite ?Ep, ?Eq, IH; reflexivity.
Qed.

Lemma filter_shorter {A} (p : A -> bool) (l : list A) :
  length (filter p l) <= length l.
Proof.
  induction l as [|x l IH]; simpl; [lia|]. destruct (p x); simpl; lia.
Qed.

Lemma renderMovies_timer_side : keeps timer_side renderMovies.
Proof.
  intro w. unfold timer_side.
  now rewrite renderMovies_keeps_this, renderMovies_keeps_env.
Qed.

Lemma searchMovies_timer_side (q : string) : keeps timer_side (searchMovies q).
Proof. unfold searchMovies. frame. apply renderMovies_timer_side. Qed.

Lemma searchMovies_searches (q : string) :
  keeps (fun w => searches (env w)) (searchMovies q).
Proof.
  unfold searchMovies. frame.
  apply (keeps_map env searches), renderMovies_keeps_env.
Qed.

Lemma run_handler_keeps {X} (part : World -> X) (m : M unit) (w : World) :
  (forall v e, part (with_env (fun b => set_uncaught (uncaught b ++ [e]) b) v)
               = part v) ->
  keeps part m -> part (run_handler m w) = part w.
Proof.
  intros Hu Hm. unfold run_handler. specialize (Hm w).
  destruct (m w) as [[[]|e] w']; simpl in *; [exact Hm | now rewrite Hu].
Qed.

Lemma fire_timer_side (w : World) (t : timer) :
  timer_side (fire w t) = timer_side w.
Proof.
  unfold fire. rewrite run_handler_keeps; [reflexivity | reflexivity |].
  destruct (timer_cb t); simpl; [|frame].
  apply keeps_bind; [frame | intros _; apply searchMovies_timer_side].
Qed.

Lemma fire_searches (w : World) (t : timer) :
  searches (env (fire w t)) = searches (env w) ++ queries [t].
Proof.
  unfold fire, queries. simpl. destruct (timer_cb t) as [q|]; simpl.
  - set (w0 := with_env _ w).
    transitivity (searches (env (log_search q w0))); [|reflexivity].
    unfold run_handler, bind, modify.
    pose proof (searchMovies_searches q (log_search q w0)) as H.
    destruct (searchMovies q (log_search q w0)) as [[[]|e] w']; exact H.
  - now rewrite app_nil_r.
Qed.

Lemma fired_timer_side (l : list timer) (w : World) :
  timer_side (fold_left fire l w) = timer_side w.
Proof.
  revert w. induction l as [|t l IH]; intro w; simpl; [reflexivity|].
  now rewrite IH, fire_timer_side.
Qed.

Lemma fired_searches (l : list timer) (w : World) :
  searches (env (fold_left fire l w)) = searches (env w) ++ queries l.
Proof.
  revert w. induction l as [|t l IH]; intro w; simpl.
  - now rewrite app_nil_r.
  - rewrite IH, fire_searches, <- app_assoc. f_equal.
    unfold queries. simpl. now rewrite app_nil_r.
Qed.

Lemma elapse_timer_side (ms : nat) (w : World) :
  timer_side (elapse ms w) =
  (filter (fun t => negb (timer_due t <=? clock (env w) + ms)) (timers (env w)),
   next_timer (env w), searchTimeout (this w)).
Proof.
  unfold elapse.
  match goal with |- timer_side (with_env _ ?v) = _ =>
    transitivity (timer_side v); [reflexivity|] end.
  now rewrite fired_timer_side.
Qed.

Lemma elapse_clock (ms : nat) (w : World) :
  clock (env (elapse ms w)) = clock (env w) + ms.
Proof. reflexivity. Qed.

Lemma elapse_pending (ms : nat) (w : World) :
  pending_searches (elapse ms w) =
  filter (fun t => negb (timer_due t <=? clock (env w) + ms)) (pending_searches w).
Proof.
  unfold pending_searches.
  rewrite (f_equal (fun x => fst (fst x)) (elapse_timer_side ms w) :
             timers (env (elapse ms w)) = _).
  apply filter_swap.
Qed.

Lemma elapse_searches (ms : nat) (w : World) :
  length (pending_searches w) <= 1 ->
  searches (env (elapse ms w)) =
  searches (env w)
  ++ queries (filter (fun t => timer_due t <=? clock (env w) + ms)
                (pending_searches w)).
Proof.
  intros Hlen. unfold elapse.
  match goal with |- searches (env (with_env _ ?v)) = _ =>
    transitivity (searches (env v)); [reflexivity|] end.
  rewrite fired_searches. simpl. f_equal.
  unfold pending_searches. rewrite filter_swap.
  rewrite queries_sorted, queries_filter; [reflexivity|].
  rewrite queries_length, filter_swap.
  etransitivity; [apply filter_shorter | exact Hlen].
Qed.

End TimerFacts.

Section DebounceInvariant.

Lemma debounce_inv_intro (w : World) l n s :
  timer_side w = (l, n, s) ->
  Forall (fun t => (timer_id t < n)%positive) l ->
  NoDup (map timer_id l) ->
  Forall (fun t => is_search t = true -> s = Some (timer_id t)) l ->
  debounce_inv w.
Proof.
  unfold timer_side, debounce_inv. intros [= -> -> ->]. auto.
Qed.

Lemma debounce_inv_side (w w' : World) :
  timer_side w = timer_side w' -> debounce_inv w -> debounce_inv w'.
Proof.
  intros H (H1 & H2 & H3). now apply (debounce_inv_intro w' _ _ _ (eq_sym H)).
Qed.

Lemma Forall_filter {A} (P : A -> Prop) (p : A -> bool) (l : list A) :
  Forall P l -> Forall P (filter p l).
Proof.
  rewrite !Forall_forall. intros H x Hx. apply filter_In in Hx. now apply H.
Qed.

(** Leaving timers out keeps the identifiers of the others distinct. *)
Lemma distinct_ids_filter (keep : timer -> bool) (l : list timer) :
  NoDup (map timer_id l) -> NoDup (map timer_id (filter keep l)).
Proof.
  induction l as [|t l IH]; simpl; intros H; [constructor|].
  inversion H as [|? ? Ht Hl]; subst.
  destruct (keep t); simpl; [|now apply IH].
  constructor; [|now apply IH]. intros Hin. apply Ht.
  apply in_map_iff in Hin. destruct Hin as (u & Hu & Hin).
  apply filter_In in Hin. apply in_map_iff. exists u. tauto.
Qed.

(** The pending search timers are cleared with the one that is
    remembered. *)
Lemma cleared_no_search (l : list timer) (o : option positive) :
  Forall (fun t => is_search t = true -> o = Some (timer_id t)) l ->
  filter is_search
    match o with
    | Some id => filter (fun t => negb (Pos.eqb (timer_id t) id)) l
    | None => l
    end = [].
Proof.
  induction 1 as [|t l Ht _ IH]; [now destruct o|].
  destruct o as [id|]; simpl.
  - destruct (Pos.eqb (timer_id t) id) eqn:E; simpl; [exact IH|].
    destruct (is_search t); [|exact IH].
    specialize (Ht eq_refl). injection Ht as ->.
    now rewrite Pos.eqb_refl in E.
  - destruct (is_search t); [now specialize (Ht eq_refl) | exact IH].
Qed.

(** When the remembered identifier is not among the timers [l], none of
    them is a search timer. *)
Lemma search_ids_agree (l : list timer) (o : option positive) (id : positive) :
  Forall (fun t => is_search t = true -> o = Some (timer_id t)) l ->
  o = Some id ->
  ~ In id (map timer_id l) ->
  filter is_search l = [].
Proof.
  intros H Ho Hnotin. induction H as [|u l Hu _ IH]; [reflexivity|].
  simpl in *. destruct (is_search u).
  - exfalso. apply Hnotin. left. specialize (Hu eq_refl). congruence.
  - apply IH. tauto.
Qed.

(** At most one invocation of the search is pending. *)
Lemma pending_bound (w : World) :
  debounce_inv w -> length (pending_searches w) <= 1.
Proof.
  unfold pending_searches. intros (_ & Hnodup & Hsearch).
  induction (timers (env w)) as [|t l IH]; simpl; [lia|].
  inversion Hnodup as [|? ? Hnotin Hl]; subst.
  inversion Hsearch as [|? ? Ht Hrest]; subst.
  destruct (is_search t) eqn:E; [|now apply IH].
  rewrite (search_ids_agree l _ (timer_id t) Hrest (Ht eq_refl) Hnotin).
  simpl. lia.
Qed.

Lemma fresh_timer (l : list timer) (t : timer) (n : positive) :
  Forall (fun t => (timer_id t < n)%positive) l ->
  NoDup (map timer_id l) ->
  timer_id t = n ->
  Forall (fun t => (timer_id t < Pos.succ n)%positive) (l ++ [t])
  /\ NoDup (map timer_id (l ++ [t])).
Proof.
  intros Hlt Hnodup Hid. split.
  - apply Forall_app. split.
    + eapply Forall_impl; [|exact Hlt]. intros; simpl in *; lia.
    + constructor; [lia | constructor].
  - rewrite map_app. simpl. apply NoDup_app_remove_l with (l := []).
    simpl. apply Permutation_NoDup with (l := timer_id t :: map timer_id l).
    + apply Permutation_cons_append.
    + constructor; [|exact Hnodup]. intros Hin.
      apply in_map_iff in Hin. destruct Hin as (u & Hu & Hin).
      rewrite Forall_forall in Hlt. specialize (Hlt u Hin). lia.
Qed.

Lemma after_clear_fresh (w : World) :
  debounce_inv w ->
  Forall (fun t => (timer_id t < next_timer (env w))%positive) (after_clear w)
  /\ NoDup (map timer_id (after_clear w))
  /\ filter is_search (after_clear w) = [].
Proof.
  intros (Hlt & Hnodup & Hsearch). unfold after_clear.
  split; [|split].
  - destruct (searchTimeout (this w)); [now apply Forall_filter | exact Hlt].
  - destruct (searchTimeout (this w)); [now apply distinct_ids_filter | exact Hnodup].
  - now apply cleared_no_search.
Qed.

Lemma dispatch_Input (q : string) (w : World) :
  timer_side (dispatch (Input q) w) =
  (after_clear w ++ [search_timer q w],
   Pos.succ (next_timer (env w)), Some (next_timer (env w)))
  /\ searches (env (dispatch (Input q) w)) = searches (env w)
  /\ clock (env (dispatch (Input q) w)) = clock (env w).
Proof.
  unfold after_clear. simpl.
  unfold run_handler, handleSearch, bind, gets. simpl.
  destruct (searchTimeout (this w)); repeat split.
Qed.

End DebounceInvariant.

Section Debouncing.

Lemma Input_armed (q : string) (w : World) :
  debounce_inv w ->
  armed q 300 (dispatch (Input q) w)
  /\ searches (env (dispatch (Input q) w)) = searches (env w).
Proof.
  intros Hinv.
  destruct (dispatch_Input q w) as (Hside & Hlog & Hclock).
  destruct (after_clear_fresh w Hinv) as (Hlt & Hnodup & Hnone).
  destruct (fresh_timer (after_clear w) (search_timer q w) _ Hlt Hnodup eq_refl)
    as (Hlt' & Hnodup').
  assert (Hpending : pending_searches (dispatch (Input q) w) = [search_timer q w]).
  { unfold pending_searches.
    rewrite (f_equal (fun x => fst (fst x)) Hside :
               timers (env (dispatch (Input q) w)) = _).
    cbn [fst]. rewrite filter_app, Hnone. reflexivity. }
  split; [split|exact Hlog].
  - apply (debounce_inv_intro _ _ _ _ Hside Hlt' Hnodup').
    apply Forall_app. split.
    + apply Forall_forall. intros t Ht Hs.
      assert (Hin : In t (filter is_search (after_clear w)))
        by (apply filter_In; now split).
      rewrite Hnone in Hin. destruct Hin.
    + constructor; [reflexivity | constructor].
  - exists (search_timer q w). rewrite Hclock. now repeat split.
Qed.

(** Before the delay is over nothing runs and the timer stays. *)
Lemma elapse_armed_early (q : string) (delay ms : nat) (w : World) :
  armed q delay w -> ms < delay ->
  armed q (delay - ms) (elapse ms w)
  /\ searches (env (elapse ms w)) = searches (env w).
Proof.
  intros [Hinv (t & Hp & Hcb & Hdue)] Hlt.
  assert (Hlate : (timer_due t <=? clock (env w) + ms) = false)
    by (apply Nat.leb_gt; lia).
  split; [split|].
  - apply (debounce_inv_intro _ _ _ _ (elapse_timer_side ms w));
      destruct Hinv as (H1 & H2 & H3);
      [now apply Forall_filter | now apply distinct_ids_filter
      | now apply Forall_filter].
  - exists t. rewrite elapse_pending, Hp, elapse_clock. simpl.
    rewrite Hlate. simpl. repeat split; [exact Hcb | lia].
  - rewrite elapse_searches by (rewrite Hp; simpl; lia).
    rewrite Hp. simpl. rewrite Hlate. simpl. apply app_nil_r.
Qed.

(** Once the delay is over the search has run, once, with the query of
    the timer, and no search is pending. *)
Lemma elapse_armed_late (q : string) (delay ms : nat) (w : World) :
  armed q delay w -> delay <= ms ->
  debounce_inv (elapse ms w)
  /\ pending_searches (elapse ms w) = []
  /\ searches (env (elapse ms w)) = searches (env w) ++ [q].
Proof.
  intros [Hinv (t & Hp & Hcb & Hdue)] Hle.
  assert (Hnow : (timer_due t <=? clock (env w) + ms) = true)
    by (apply Nat.leb_le; lia).
  split; [|split].
  - apply (debounce_inv_intro _ _ _ _ (elapse_timer_side ms w));
      destruct Hinv as (H1 & H2 & H3);
      [now apply Forall_filter | now apply distinct_ids_filter
      | now apply Forall_filter].
  - rewrite elapse_pending, Hp. simpl. now rewrite Hnow.
  - rewrite elapse_searches by (rewrite Hp; simpl; lia).
    rewrite Hp. simpl. rewrite Hnow. unfold queries. simpl. now rewrite Hcb.
Qed.

(** With no search pending, time passes without a search. *)
Lemma elapse_idle (ms : nat) (w : World) :
  pending_searches w = [] ->
  pending_searches (elapse ms w) = []
  /\ searches (env (elapse ms w)) = searches (env w).
Proof.
  intros Hp. split.
  - now rewrite elapse_pending, Hp.
  - rewrite elapse_searches by (rewrite Hp; simpl; lia).
    rewrite Hp. simpl. apply app_nil_r.
Qed.

Lemma last_default {A} (l : list A) (a d d' : A) :
  last (a :: l) d = last (a :: l) d'.
Proof.
  revert a. induction l as [|b l IH]; intro a; [reflexivity|].
  change (last (b :: l) d = last (b :: l) d'). apply IH.
Qed.

(** Texts that arrive less than 300 ms apart leave one timer, for the
    last of them, and no search has run. *)
Lemma keystrokes_armed (gap : nat) (qs : list string) :
  gap < 300 ->
  forall (q : string) (w : World),
    debounce_inv w ->
    armed (last (q :: qs) q) 300 (run (keystrokes gap (q :: qs)) w)
    /\ searches (env (run (keystrokes gap (q :: qs)) w)) = searches (env w)
    /\ clock (env (run (keystrokes gap (q :: qs)) w))
       = clock (env w) + gap * length qs.
Proof.
  intros Hgap. induction qs as [|q' qs IH]; intros q w Hinv.
  - destruct (Input_armed q w Hinv) as (Harmed & Hlog).
    destruct (dispatch_Input q w) as (_ & _ & Hclock).
    split; [exact Harmed | split; [exact Hlog|]].
    simpl. rewrite Nat.mul_0_r, Nat.add_0_r. exact Hclock.
  - change (keystrokes gap (q :: q' :: qs))
      with (Input q :: Elapse gap :: keystrokes gap (q' :: qs)).
    change (run (Input q :: Elapse gap :: keystrokes gap (q' :: qs)) w)
      with (run (keystrokes gap (q' :: qs)) (elapse gap (dispatch (Input q) w))).
    destruct (Input_armed q w Hinv) as (Harmed & Hlog).
    destruct (elapse_armed_early q 300 gap _ Harmed Hgap) as ([Hinv' _] & Hlog').
    destruct (IH q' _ Hinv') as (Harmed'' & Hlog'' & Hclock'').
    destruct (dispatch_Input q w) as (_ & _ & Hclock).
    split; [|split].
    + change (last (q :: q' :: qs) q) with (last (q' :: qs) q).
      now rewrite (last_default qs q' q q').
    + now rewrite Hlog'', Hlog', Hlog.
    + rewrite Hclock'', elapse_clock, Hclock. simpl length. lia.
Qed.

End Debouncing.

Section DebounceEverywhere.

Lemma elapse_debounce_inv (ms : nat) (w : World) :
  debounce_inv w -> debounce_inv (elapse ms w).
Proof.
  intros (H1 & H2 & H3).
  apply (debounce_inv_intro _ _ _ _ (elapse_timer_side ms w));
    [now apply Forall_filter | now apply distinct_ids_filter
    | now apply Forall_filter].
Qed.

Lemma openModal_timer_side (movie : value) (w : World) :
  timer_side (run_handler (openModal movie) w) =
  if is_nullish movie then timer_side w
  else (timers (env w) ++ [focus_timer w],
        Pos.succ (next_timer (env w)), searchTimeout (this w)).
Proof. destruct movie; reflexivity. Qed.

Lemma openModal_debounce_inv (movie : value) (w : World) :
  debounce_inv w -> debounce_inv (run_handler (openModal movie) w).
Proof.
  intros Hinv. pose proof (openModal_timer_side movie w) as Hside.
  destruct (is_nullish movie).
  - now apply (debounce_inv_side w).
  - destruct Hinv as (H1 & H2 & H3).
    destruct (fresh_timer _ (focus_timer w) _ H1 H2 eq_refl) as (H1' & H2').
    apply (debounce_inv_intro _ _ _ _ Hside H1' H2').
    apply Forall_app. split; [exact H3|].
    constructor; [discriminate | constructor].
Qed.

Lemma on_keydown_debounce_inv (key : string) (w : World) :
  debounce_inv w -> debounce_inv (run_handler (on_keydown key) w).
Proof.
  apply debounce_inv_side. symmetry.
  apply run_handler_keeps; [reflexivity|]. unfold on_keydown. frame.
Qed.

Lemma loadMovies_resume_timer_side (o : fetch_outcome) :
  keeps timer_side (loadMovies_resume o).
Proof. unfold loadMovies_resume. frame. apply renderMovies_timer_side. Qed.

Lemma dispatch_debounce_inv (e : event) (w : World) :
  debounce_inv w -> debounce_inv (dispatch e w).
Proof.
  intros H. destruct e; simpl.
  - apply (Input_armed text w H).
  - revert H. now apply debounce_inv_side.
  - destruct onBackdrop; [|exact H]. revert H. now apply debounce_inv_side.
  - revert H. now apply debounce_inv_side.
  - now apply on_keydown_debounce_inv.
  - destruct (nth_error (cards (doc w)) n); [|exact H].
    now apply openModal_debounce_inv.
  - destruct (nth_error (cards (doc w)) n); [|exact H].
    apply on_keydown_debounce_inv.
    destruct (is_activation key); [|exact H].
    now apply openModal_debounce_inv.
  - destruct (existsb (Nat.eqb id) (inflight (env w))); [|exact H].
    rewrite run_handler_resume. revert H. apply debounce_inv_side.
    symmetry. rewrite (loadMovies_resume_timer_side o). reflexivity.
  - now apply elapse_debounce_inv.
Qed.

Lemma run_debounce_inv (es : list event) (w : World) :
  debounce_inv w -> debounce_inv (run es w).
Proof.
  revert w. induction es as [|e es IH]; intros w H; [exact H|].
  simpl. apply IH, dispatch_debounce_inv, H.
Qed.

Lemma startup_debounce_inv : debounce_inv startup.
Proof. repeat split; constructor. Qed.

End DebounceEverywhere.

(** C4: five texts reach [handleSearch] 50 ms apart.  While they arrive no
    search runs and one timer is pending, for the fifth; 300 ms after the
    fifth the search has run exactly once, with the fifth text; nothing
    remains pending and no search runs later.  Whatever the events, at most
    one search invocation is pending. *)
Theorem debounce_runs_last_query_once
  (w : World) (q1 q2 q3 q4 q5 : string) (extra more : nat) (es : list event)
  (Hinv : debounce_inv w) :
  let typed := run (keystrokes 50 [q1; q2; q3; q4; q5]) w in
  let settled := dispatch (Elapse (300 + extra)) typed in
  clock (env typed) = clock (env w) + 200
  /\ searches (env typed) = searches (env w)
  /\ (exists t, pending_searches typed = [t]
                /\ timer_cb t = SearchCallback q5
                /\ timer_due t = clock (env typed) + 300)
  /\ searches (env settled) = searches (env w) ++ [q5]
  /\ pending_searches settled = []
  /\ searches (env (dispatch (Elapse more) settled)) = searches (env w) ++ [q5]
  /\ length (pending_searches (run es w)) <= 1.
Proof.
  intros typed settled. subst settled. cbn [dispatch].
  destruct (keystrokes_armed 50 [q2; q3; q4; q5] ltac:(lia) q1 w Hinv)
    as (Harmed & Hlog & Hclock).
  change (last [q1; q2; q3; q4; q5] q1) with q5 in Harmed.
  fold typed in Harmed, Hlog, Hclock.
  destruct (elapse_armed_late q5 300 (300 + extra) typed Harmed ltac:(lia))
    as (Hinv' & Hnone & Hran).
  destruct (elapse_idle more _ Hnone) as (_ & Hlater).
  refine (conj Hclock (conj Hlog (conj (proj2 Harmed) (conj _ (conj Hnone (conj _ _)))))).
  - now rewrite Hran, Hlog.
  - now rewrite Hlater, Hran, Hlog.
  - apply pending_bound, run_debounce_inv, Hinv.
Qed.

Lemma debounce_runs_last_query_once_witness :
  debounce_inv startup
  /\ searches
       (env (dispatch (Elapse (300 + 0))
               (run (keystrokes 50 ["d"; "da"; "dar"; "dark"; "dark "]) startup)))
     = searches (env startup) ++ ["dark "]
  /\ pending_searches
       (dispatch (Elapse (300 + 0))
          (run (keystrokes 50 ["d"; "da"; "dar"; "dark"; "dark "]) startup))
     = [].
Proof.
  pose proof (debounce_runs_last_query_once startup "d" "da" "dar" "dark" "dark "
                0 0 [] startup_debounce_inv)
    as (_ & _ & _ & Hran & Hnone & _).
  exact (conj startup_debounce_inv (conj Hran Hnone)).
Defined.

(** ** [Utils.debounce] *)
Section UtilsDebounce.

Import Utils.

Context {Args St : Type} (func : Args -> St -> St) (wait : nat).

Lemma clear_remembered (o : option positive) (l : list (@pending Args)) :
  l = [] \/ (exists p, l = [p] /\ o = Some (p_id p)) -> clear o l = [].
Proof.
  intros [-> | (p & -> & ->)]; [now destruct o|].
  simpl. now rewrite Pos.eqb_refl.
Qed.

Lemma executedFunction_waiting (args : Args) (c : @Closure Args St) :
  at_most_one c ->
  waiting args wait (executedFunction wait args c)
  /\ target (executedFunction wait args c) = target c
  /\ now (executedFunction wait args c) = now c.
Proof.
  intros H. unfold waiting, executedFunction. simpl.
  rewrite (clear_remembered _ _ H). split; [|now split].
  now exists (fresh c).
Qed.

Lemma waiting_at_most_one (args : Args) (delay : nat) (c : @Closure Args St) :
  waiting args delay c -> at_most_one c.
Proof. intros (id & Ht & Hid). right. eexists. split; [exact Ht | exact Hid]. Qed.

(** Before the wait is over the timer stays and [func] has not run. *)
Lemma advance_early (args : Args) (delay ms : nat) (c : @Closure Args St) :
  waiting args delay c -> ms < delay ->
  waiting args (delay - ms) (advance func ms c)
  /\ target (advance func ms c) = target c.
Proof.
  intros (id & Ht & Hid) Hlt. unfold advance, waiting. rewrite Ht. simpl.
  rewrite Ht. simpl.
  replace (now c + delay <=? now c + ms) with false
    by (symmetry; apply Nat.leb_gt; lia).
  simpl. split; [|reflexivity]. exists id. rewrite Ht, Hid. split; [|reflexivity].
  do 2 f_equal. lia.
Qed.

(** Once the wait is over [func] has run, once, with the arguments of the
    timer, and no timer is left. *)
Lemma advance_late (args : Args) (delay ms : nat) (c : @Closure Args St) :
  waiting args delay c -> delay <= ms ->
  table (advance func ms c) = []
  /\ target (advance func ms c) = func args (target c).
Proof.
  intros (id & Ht & Hid) Hle. unfold advance. rewrite Ht. simpl.
  rewrite Ht. simpl.
  replace (now c + delay <=? now c + ms) with true
    by (symmetry; apply Nat.leb_le; lia).
  simpl. rewrite Ht. simpl. rewrite Pos.eqb_refl. simpl.
  split; [now destruct (timeout c) | reflexivity].
Qed.

Lemma advance_idle (ms : nat) (c : @Closure Args St) :
  table c = [] ->
  table (advance func ms c) = [] /\ target (advance func ms c) = target c.
Proof. intros H. unfold advance. rewrite H. simpl. now split. Qed.

(** Calls less than [wait] apart leave one timer, for the last of them, and
    [func] has not run. *)
Lemma burst_waiting (gap : nat) (rest : list Args) :
  gap < wait ->
  forall (args : Args) (c : @Closure Args St),
    at_most_one c ->
    waiting (last (args :: rest) args) wait
      (burst func wait gap (args :: rest) c)
    /\ target (burst func wait gap (args :: rest) c) = target c.
Proof.
  intros Hgap. induction rest as [|args' rest IH]; intros args c Hc.
  - destruct (executedFunction_waiting args c Hc) as (Hw & Ht & _). now split.
  - change (burst func wait gap (args :: args' :: rest) c)
      with (burst func wait gap (args' :: rest)
              (advance func gap (executedFunction wait args c))).
    destruct (executedFunction_waiting args c Hc) as (Hw & Ht & _).
    destruct (advance_early args wait gap _ Hw Hgap) as (Hw' & Ht').
    destruct (IH args' _ (waiting_at_most_one _ _ _ Hw')) as (Hw'' & Ht'').
    split.
    + change (last (args :: args' :: rest) args) with (last (args' :: rest) args).
      now rewrite (last_default rest args' args args').
    + now rewrite Ht'', Ht', Ht.
Qed.

(** Five calls of the debounced function 50 ms apart, with a longer wait
    (300 ms for the search field): [func] runs once, with the arguments of
    the fifth call, when the wait is over, and not again. *)
Lemma Utils_debounce_runs_last_call_once
  (a1 a2 a3 a4 a5 : Args) (extra more : nat) (c : @Closure Args St) :
  50 < wait ->
  at_most_one c ->
  let called := burst func wait 50 [a1; a2; a3; a4; a5] c in
  let settled := advance func (wait + extra) called in
  target called = target c
  /\ waiting a5 wait called
  /\ target settled = func a5 (target c)
  /\ table settled = []
  /\ target (advance func more settled) = func a5 (target c).
Proof.
  intros Hwait Hc called settled.
  destruct (burst_waiting 50 [a2; a3; a4; a5] ltac:(lia) a1 c Hc) as (Hw & Ht).
  change (last [a1; a2; a3; a4; a5] a1) with a5 in Hw.
  fold called in Hw, Ht.
  destruct (advance_late a5 wait (wait + extra) called Hw ltac:(lia))
    as (Hnone & Hran).
  fold settled in Hnone, Hran.
  destruct (advance_idle more settled Hnone) as (_ & Hlater).
  rewrite Hlater, Hran, Ht. now repeat split.
Qed.

End UtilsDebounce.

Example Utils_debounce_collapses_a_burst :
  Utils.target
    (Utils.advance cons 300
       (Utils.burst cons 300 50 ["d"; "da"; "dar"; "dark"; "dark "]
          (Utils.created 0 [])))
  = ["dark "].
Proof. reflexivity. Qed.

Example Utils_debounce_runs_spaced_calls :
  Utils.target
    (Utils.advance cons 300
       (Utils.burst cons 300 300 ["d"; "da"] (Utils.created 0 [])))
  = ["da"; "d"].
Proof. reflexivity. Qed.

(** * Further properties of the source *)

(** ** [Utils.debounce], any number of calls *)
Section UtilsDebounceMore.

Import Utils.

Context {Args St : Type} (func : Args -> St -> St) (wait : nat).

(** X1: calls of a debounced function that follow each other by less than
    [wait] run [func] once, with the arguments of the last call, when the
    wait is over; until then [func] has not run, and afterwards no timer is
    left. *)
Theorem Utils_debounce_burst
  (args : Args) (rest : list Args) (gap extra : nat) (c : @Closure Args St)
  (Hgap : gap < wait) (Hc : at_most_one c) :
  let called := burst func wait gap (args :: rest) c in
  target called = target c
  /\ target (advance func (wait + extra) called) = func (last rest args) (target c)
  /\ table (advance func (wait + extra) called) = [].
Proof.
  intros called.
  destruct (burst_waiting func wait gap rest Hgap args c Hc) as (Hw & Ht).
  fold called in Hw, Ht.
  replace (last (args :: rest) args) with (last rest args) in Hw
    by (now destruct rest).
  destruct (advance_late func _ wait (wait + extra) called Hw ltac:(lia))
    as (Hnone & Hran).
  rewrite Hran, Ht. now repeat split.
Qed.

(** X2: calls that are at least [wait] apart all run [func], each with its
    own arguments, in the order of the calls. *)
Theorem Utils_debounce_spaced
  (args : Args) (rest : list Args) (gap ms : nat) (c : @Closure Args St)
  (Hgap : wait <= gap) (Hms : wait <= ms) (Hc : at_most_one c) :
  target (advance func ms (burst func wait gap (args :: rest) c))
  = fold_left (fun st a => func a st) (args :: rest) (target c)
  /\ table (advance func ms (burst func wait gap (args :: rest) c)) = [].
Proof.
  revert args c Hc. induction rest as [|args' rest IH]; intros args c Hc.
  - destruct (executedFunction_waiting wait args c Hc) as (Hw & Ht & _).
    destruct (advance_late func args wait ms _ Hw Hms) as (Hnone & Hran).
    change (burst func wait gap [args] c) with (executedFunction wait args c).
    rewrite Hran, Ht, Hnone. now split.
  - change (burst func wait gap (args :: args' :: rest) c)
      with (burst func wait gap (args' :: rest)
              (advance func gap (executedFunction wait args c))).
    destruct (executedFunction_waiting wait args c Hc) as (Hw & Ht & _).
    destruct (advance_late func args wait gap _ Hw Hgap) as (Hnone & Hran).
    destruct (IH args' _ (or_introl Hnone)) as (Htarget & Htable).
    rewrite Htarget, Htable, Hran, Ht. now split.
Qed.

End UtilsDebounceMore.

Lemma Utils_debounce_burst_witness :
  50 < 300
  /\ Utils.at_most_one (@Utils.created string (list string) 0 [])
  /\ Utils.target
       (Utils.advance cons (300 + 0)
          (Utils.burst cons 300 50 ["d"; "da"; "dar"] (@Utils.created string (list string) 0 [])))
     = [last ["da"; "dar"] "d"].
Proof.
  assert (Hgap : 50 < 300) by lia.
  assert (Hc : Utils.at_most_one (@Utils.created string (list string) 0 []))
    by (left; reflexivity).
  pose proof (Utils_debounce_burst cons 300 "d" ["da"; "dar"] 50 0
                (@Utils.created string (list string) 0 []) Hgap Hc) as (_ & Hran & _).
  exact (conj Hgap (conj Hc Hran)).
Defined.

Lemma Utils_debounce_spaced_witness :
  300 <= 400
  /\ Utils.at_most_one (@Utils.created string (list string) 0 [])
  /\ Utils.target
       (Utils.advance cons 400
          (Utils.burst cons 300 400 ["d"; "da"; "dar"] (@Utils.created string (list string) 0 [])))
     = fold_left (fun st a => a :: st) ["d"; "da"; "dar"] [].
Proof.
  assert (Hgap : 300 <= 400) by lia.
  assert (Hc : Utils.at_most_one (@Utils.created string (list string) 0 []))
    by (left; reflexivity).
  pose proof (Utils_debounce_spaced cons 300 "d" ["da"; "dar"] 400 400
                (@Utils.created string (list string) 0 []) Hgap Hgap Hc) as (Hran & _).
  exact (conj Hgap (conj Hc Hran)).
Defined.

(** ** [Utils.formatRating] and [Utils.truncateText] *)
Section TextUtilities.



Lemma length_append (a b : string) :
  String.length (a ++ b) = String.length a + String.length b.
Proof. induction a as [|x a IH]; simpl; [reflexivity | now rewrite IH]. Qed.

Lemma substring_start_length (n : nat) (s : string) :
  n <= String.length s -> String.length (substring 0 n s) = n.
Proof.
  revert s. induction n as [|n IH]; intros s H; [now destruct s|].
  destruct s as [|c s]; simpl in *; [lia|]. rewrite IH; lia.
Qed.

Lemma substring_start_app (a b : string) :
  substring 0 (String.length a) (a ++ b) = a.
Proof.
  induction a as [|c a IH]; simpl; [now destruct b | now rewrite IH].
Qed.

Lemma substring_start_prefix (n : nat) (s : string) :
  exists post, s = (substring 0 n s ++ post)%string.
Proof.
  revert s. induction n as [|n IH]; intros s.
  - exists s. now destruct s.
  - destruct s as [|c s]; [now exists EmptyString|].
    destruct (IH s) as [post H]. exists post. simpl. now rewrite <- H.
Qed.

End TextUtilities.


(** X4: [truncateText] returns a text that starts with the first
    [maxLength] characters of the given one; its length is that of the
    text when this is at most [maxLength], and [maxLength] plus the three
    dots otherwise, which is more than the text had when it exceeded
    [maxLength] by one or two characters. *)
Theorem truncateText_length (text : string) (maxLength : Z) :
  String.length (truncateText text maxLength)
  = (if (Z.of_nat (String.length text) <=? maxLength)%Z
     then String.length text
     else Z.to_nat maxLength + 3)
  /\ prefix (substring 0 (Z.to_nat maxLength) text) (truncateText text maxLength)
     = true.
Proof.
  unfold truncateText.
  destruct (Z.of_nat (String.length text) <=? maxLength)%Z eqn:E.
  - split; [reflexivity|]. apply prefix_app, substring_start_prefix.
  - apply Z.leb_gt in E. split.
    + rewrite length_append, substring_start_length by lia. reflexivity.
    + apply prefix_app. now exists "...".
Qed.

(** X5: truncating a truncated text with the same bound changes nothing. *)
Theorem truncateText_idempotent (text : string) (maxLength : Z) :
  truncateText (truncateText text maxLength) maxLength
  = truncateText text maxLength.
Proof.
  unfold truncateText at 2.
  destruct (Z.of_nat (String.length text) <=? maxLength)%Z eqn:E.
  - unfold truncateText. now rewrite E.
  - unfold truncateText. rewrite E. apply Z.leb_gt in E.
    set (n := Z.to_nat maxLength). set (kept := substring 0 n text).
    assert (Hkept : String.length kept = n)
      by (apply substring_start_length; lia).
    rewrite length_append, Hkept. simpl String.length.
    replace (Z.of_nat (n + 3) <=? maxLength)%Z with false
      by (symmetry; apply Z.leb_gt; lia).
    cbv iota. rewrite <- Hkept at 1. now rewrite substring_start_app.
Qed.

(** ** Searching, beyond titled collections *)
Section SearchingMore.


Lemma title_includes_untitled (term : string) (v : value) :
  title_of v = None -> title_includes term v = Throw TypeError.
Proof.
  unfold title_of, title_includes. destruct v; simpl; try reflexivity.
  destruct (lookup "title" fields) as [[]|]; try reflexivity. discriminate.
Qed.

Lemma title_includes_outcome (term : string) (v : value) :
  (exists keep, title_includes term v = Ok keep)
  \/ title_includes term v = Throw TypeError.
Proof.
  destruct (title_of v) as [t|] eqn:E.
  - left. exists (matches term v). apply title_includes_titled.
    unfold titled. now rewrite E.
  - right. now apply title_includes_untitled.
Qed.

Lemma filter_items_untitled (term : string) (items : list value) :
  Exists (fun v => title_of v = None) items ->
  filter_items (title_includes term) items = Throw TypeError.
Proof.
  induction 1 as [v rest Hv | v rest _ IH]; simpl.
  - now rewrite (title_includes_untitled term v Hv).
  - destruct (title_includes_outcome term v) as [[keep ->] | ->]; simpl;
      [now rewrite IH | reflexivity].
Qed.


End SearchingMore.

(** X6: texts that reach the search field at least 300 ms apart are all
    searched for, in the order they came, and nothing is left pending. *)
Theorem spaced_typing_searches_every_text
  (w : World) (q : string) (qs : list string) (gap ms : nat)
  (Hgap : 300 <= gap) (Hms : 300 <= ms) (Hinv : debounce_inv w) :
  searches (env (elapse ms (run (keystrokes gap (q :: qs)) w)))
  = searches (env w) ++ q :: qs
  /\ pending_searches (elapse ms (run (keystrokes gap (q :: qs)) w)) = [].
Proof.
  revert q w Hinv. induction qs as [|q' qs IH]; intros q w Hinv.
  - change (run (keystrokes gap [q]) w) with (dispatch (Input q) w).
    destruct (Input_armed q w Hinv) as (Harmed & Hlog).
    destruct (elapse_armed_late q 300 ms _ Harmed Hms) as (_ & Hnone & Hran).
    now rewrite Hran, Hlog.
  - change (run (keystrokes gap (q :: q' :: qs)) w)
      with (run (keystrokes gap (q' :: qs)) (elapse gap (dispatch (Input q) w))).
    destruct (Input_armed q w Hinv) as (Harmed & Hlog).
    destruct (elapse_armed_late q 300 gap _ Harmed Hgap) as (Hinv' & _ & Hran).
    destruct (IH q' _ Hinv') as (Hall & Hnone).
    split; [|exact Hnone].
    rewrite Hall, Hran, Hlog, <- app_assoc. reflexivity.
Qed.

Lemma spaced_typing_searches_every_text_witness :
  300 <= 300
  /\ debounce_inv startup
  /\ searches (env (elapse 300 (run (keystrokes 300 ["d"; "da"; "dar"]) startup)))
     = searches (env startup) ++ ["d"; "da"; "dar"].
Proof.
  assert (H : 300 <= 300) by lia.
  pose proof (spaced_typing_searches_every_text startup "d" ["da"; "dar"]
                300 300 H H startup_debounce_inv) as (Hall & _).
  exact (conj H (conj startup_debounce_inv Hall)).
Defined.


(** X8: when an item of the collection has no title that is a string, a
    search for a text that is not blank throws a TypeError before anything
    is written: the filtered view and the page stay as they were. *)
Theorem searchMovies_fails_on_untitled
  (w : World) (items : list value) (q : string)
  (Hmovies : movies (this w) = Arr items)
  (Huntitled : Exists (fun v => title_of v = None) items)
  (Hquery : trim (toLowerCase q) <> "") :
  searchMovies q w = (Throw TypeError, w).
Proof.
  unfold searchMovies, bind, gets, lift. simpl. rewrite Hmovies.
  destruct (trim (toLowerCase q) =? "")%string eqn:E.
  - apply String.eqb_eq in E. contradiction.
  - simpl. now rewrite (filter_items_untitled _ _ Huntitled).
Qed.

Lemma searchMovies_fails_on_untitled_witness :
  movies (this loaded_untitled) = Arr [dark_knight; Num 10]
  /\ Exists (fun v => title_of v = None) [dark_knight; Num 10]
  /\ trim (toLowerCase "Dark") <> ""
  /\ searchMovies "Dark" loaded_untitled = (Throw TypeError, loaded_untitled).
Proof.
  assert (Hm : movies (this loaded_untitled) = Arr [dark_knight; Num 10])
    by (vm_compute; reflexivity).
  assert (Hu : Exists (fun v => title_of v = None) [dark_knight; Num 10])
    by (right; left; reflexivity).
  assert (Hq : trim (toLowerCase "Dark") <> "") by (vm_compute; discriminate).
  exact (conj Hm (conj Hu (conj Hq
           (searchMovies_fails_on_untitled loaded_untitled _ "Dark" Hm Hu Hq)))).
Defined.

(** X9: a blank query never reads a title: whatever the items of the
    collection are, the filtered view becomes the whole collection, and
    the region shown is the empty one or the grid according to it. *)
Theorem blank_query_shows_everything
  (w : World) (items : list value) (q : string)
  (Hmovies : movies (this w) = Arr items)
  (Hblank : trim (toLowerCase q) = "") :
  filteredMovies (this (snd (searchMovies q w))) = items
  /\ movies (this (snd (searchMovies q w))) = Arr items
  /\ active (snd (searchMovies q w))
     = [match items with [] => Empty | _ :: _ => Populated end].
Proof.
  assert (H : searchMovies q w = renderMovies (with_this (set_filteredMovies items) w)).
  { unfold searchMovies, bind, gets, lift, modify. simpl.
    now rewrite Hmovies, Hblank. }
  rewrite H, renderMovies_keeps_this, renderMovies_active. now repeat split.
Qed.

Lemma blank_query_shows_everything_witness :
  movies (this loaded_untitled) = Arr [dark_knight; Num 10]
  /\ trim (toLowerCase "  ") = ""
  /\ filteredMovies (this (snd (searchMovies "  " loaded_untitled)))
     = [dark_knight; Num 10].
Proof.
  assert (Hm : movies (this loaded_untitled) = Arr [dark_knight; Num 10])
    by (vm_compute; reflexivity).
  assert (Hq : trim (toLowerCase "  ") = "") by (vm_compute; reflexivity).
  pose proof (blank_query_shows_everything loaded_untitled _ "  " Hm Hq)
    as (Hshown & _).
  exact (conj Hm (conj Hq Hshown)).
Defined.



(** ** Rendering and the cards *)
Section RenderingMore.





End RenderingMore.





(** ** Keys, the overlay and the focus *)
Section OverlayMore.

Lemma on_keydown_cases (key : string) (w : World) :
  run_handler (on_keydown key) w = w
  \/ run_handler (on_keydown key) w = closeModal w.
Proof.
  unfold run_handler, on_keydown, bind, gets. simpl.
  destruct ((key =? "Escape")%string && isModalOpen w); [now right | now left].
Qed.

Lemma scroll_inv_styles (w w' : World) :
  overlay_styles w = overlay_styles w' -> scroll_inv w -> scroll_inv w'.
Proof.
  unfold overlay_styles, scroll_inv, isModalOpen. intros [= Hm Ho].
  now rewrite Hm, Ho.
Qed.

Lemma renderMovies_overlay_styles : keeps overlay_styles renderMovies.
Proof.
  unfold renderMovies. apply keeps_bind; [apply keeps_gets | intros [|m l]].
  - frame.
  - frame. now apply appendCards_keeps.
Qed.

Lemma run_callback_overlay_styles (cb : callback) :
  keeps overlay_styles (run_callback cb).
Proof.
  destruct cb; simpl; [|frame].
  apply keeps_bind; [frame | intros _].
  unfold searchMovies. frame. apply renderMovies_overlay_styles.
Qed.

Lemma fire_overlay_styles (w : World) (t : timer) :
  overlay_styles (fire w t) = overlay_styles w.
Proof.
  unfold fire. rewrite run_handler_keeps; [reflexivity | reflexivity |].
  apply run_callback_overlay_styles.
Qed.

Lemma fired_overlay_styles (l : list timer) (w : World) :
  overlay_styles (fold_left fire l w) = overlay_styles w.
Proof.
  revert w. induction l as [|t l IH]; intro w; [reflexivity|].
  simpl. now rewrite IH, fire_overlay_styles.
Qed.

Lemma elapse_overlay_styles (ms : nat) (w : World) :
  overlay_styles (elapse ms w) = overlay_styles w.
Proof.
  unfold elapse.
  match goal with |- overlay_styles (with_env _ ?v) = _ =>
    transitivity (overlay_styles v); [reflexivity|] end.
  now rewrite fired_overlay_styles.
Qed.

Lemma loadMovies_resume_overlay_styles (o : fetch_outcome) :
  keeps overlay_styles (loadMovies_resume o).
Proof. unfold loadMovies_resume. frame. apply renderMovies_overlay_styles. Qed.

Lemma dispatch_scroll_inv (e : event) (w : World) :
  scroll_inv w -> scroll_inv (dispatch e w).
Proof.
  intros H. destruct e; simpl.
  - revert H. apply scroll_inv_styles. symmetry.
    apply run_handler_keeps; [reflexivity|]. unfold handleSearch, setTimeout. frame.
  - apply (call_scroll_inv CallClose w H).
  - destruct onBackdrop; [apply (call_scroll_inv CallClose w H) | exact H].
  - revert H. now apply scroll_inv_styles.
  - destruct (on_keydown_cases key w) as [-> | ->];
      [exact H | apply (call_scroll_inv CallClose w H)].
  - destruct (nth_error (cards (doc w)) n) as [c|]; [|exact H].
    apply (call_scroll_inv (CallOpen (card_movie c)) w H).
  - destruct (nth_error (cards (doc w)) n) as [c|]; [|exact H].
    assert (H1 : scroll_inv (if is_activation key
                             then run_handler (openModal (card_movie c)) w
                             else w)).
    { destruct (is_activation key); [|exact H].
      apply (call_scroll_inv (CallOpen (card_movie c)) w H). }
    destruct (on_keydown_cases key
                (if is_activation key
                 then run_handler (openModal (card_movie c)) w else w))
      as [-> | ->]; [exact H1 | apply (call_scroll_inv CallClose _ H1)].
  - destruct (existsb (Nat.eqb id) (inflight (env w))); [|exact H].
    rewrite run_handler_resume. revert H. apply scroll_inv_styles.
    symmetry. now rewrite (loadMovies_resume_overlay_styles o).
  - revert H. apply scroll_inv_styles. symmetry. apply elapse_overlay_styles.
Qed.





End OverlayMore.

(** X13: on a card the Enter key and the space key do what a click does. *)
Theorem card_keys_act_as_click (w : World) (n : nat) :
  dispatch (KeydownCard n "Enter") w = dispatch (ClickCard n) w
  /\ dispatch (KeydownCard n " ") w = dispatch (ClickCard n) w.
Proof.
  simpl. destruct (nth_error (cards (doc w)) n) as [c|]; [|now split].
  split;
    match goal with |- run_handler (on_keydown ?k) ?v = _ =>
      unfold run_handler at 1, on_keydown, bind, gets; reflexivity end.
Qed.

(** X14: while the overlay is closed, the key listener [bindEvents] puts on
    the document changes nothing, whatever keys are pressed outside the
    cards; the Escape key does not give scrolling back where nothing took
    it. *)
Theorem keys_do_nothing_while_closed (w : World) (keys : list string)
  (Hclosed : isModalOpen w = false) :
  run (map Keydown keys) w = w.
Proof.
  induction keys as [|key keys IH]; [reflexivity|].
  simpl. unfold run_handler, on_keydown, bind, gets. simpl.
  rewrite Hclosed, andb_false_r. exact IH.
Qed.

Lemma keys_do_nothing_while_closed_witness :
  isModalOpen loaded = false
  /\ run (map Keydown ["Escape"; "Enter"; "f"]) loaded = loaded.
Proof.
  assert (H : isModalOpen loaded = false) by (vm_compute; reflexivity).
  exact (conj H (keys_do_nothing_while_closed loaded ["Escape"; "Enter"; "f"] H)).
Defined.

(** X15: whatever happens on the page (typing, clicks, keys, responses,
    timers), background scrolling is suppressed exactly when the overlay is
    open, provided it was so before. *)
Theorem scroll_lock_follows_overlay (w : World) (es : list event)
  (Hinv : scroll_inv w) :
  scroll_inv (run es w).
Proof.
  revert w Hinv. induction es as [|e es IH]; intros w H; [exact H|].
  simpl. apply IH, dispatch_scroll_inv, H.
Qed.

Lemma scroll_lock_follows_overlay_witness :
  scroll_inv startup
  /\ scroll_inv
       (run [Settle 0 (success sample); ClickCard 1; Input "dark"; Elapse 300;
             Keydown "Escape"; ClickRetry] startup).
Proof.
  assert (H : scroll_inv startup) by (split; discriminate).
  exact (conj H (scroll_lock_follows_overlay startup _ H)).
Defined.

(** X16: a load that fails before it has data (the source is unreachable,
    the status is not a success, the body is not JSON) does not clear the
    loading flag: the error region is shown with [isLoading] still set; a
    load that delivers an array clears it. *)
Theorem failed_load_leaves_loading_flag
  (w : World) (status : nat) (body : payload) (items : list value) :
  let id := next_fetch (env w) in
  let started := dispatch ClickRetry w in
  isLoading (this started) = true
  /\ isLoading (this (dispatch (Settle id Unreachable) started)) = true
  /\ active (dispatch (Settle id Unreachable) started) = [Error]
  /\ isLoading (this (dispatch (Settle id (Response status Malformed)) started))
     = true
  /\ active (dispatch (Settle id (Response status Malformed)) started) = [Error]
  /\ (response_ok status = false ->
      isLoading (this (dispatch (Settle id (Response status body)) started)) = true
      /\ active (dispatch (Settle id (Response status body)) started) = [Error])
  /\ isLoading (this (dispatch (Settle id (success items)) started)) = false.
Proof.
  intros id started.
  assert (Hin : In id (inflight (env started)))
    by (subst id started; simpl; apply in_or_app; right; now left).
  rewrite !(dispatch_Settle started id _ Hin), !run_handler_resume.
  refine (conj eq_refl (conj eq_refl (conj eq_refl
            (conj _ (conj _ (conj _ _)))))).
  - unfold loadMovies_resume, try_catch. now destruct (response_ok status).
  - unfold loadMovies_resume, try_catch. now destruct (response_ok status).
  - intros Hbad. unfold loadMovies_resume, try_catch. rewrite Hbad. now split.
  - unfold success. now rewrite (loadMovies_resume_this 200 items _ eq_refl).
Qed.

Lemma failed_load_leaves_loading_flag_witness :
  response_ok 500 = false
  /\ isLoading
       (this (dispatch (Settle (next_fetch (env loaded))
                         (Response 500 (Parsed (Arr sample))))
                (dispatch ClickRetry loaded)))
     = true
  /\ active (dispatch (Settle (next_fetch (env loaded))
                         (Response 500 (Parsed (Arr sample))))
               (dispatch ClickRetry loaded))
     = [Error].
Proof.
  pose proof (failed_load_leaves_loading_flag loaded 500 (Parsed (Arr sample)) [])
    as (_ & _ & _ & _ & _ & Hbad & _).
  exact (conj eq_refl (Hbad eq_refl)).
Defined.



(** ** What the cards and the overlay show *)





